(** * Board diagnostics: the button edge-capture test and the menu line reader

    A shallow embedding of [board_diag.c]:
    - [GetInputString], the line reader of the menu layer;
    - [handle_button_interrupts], [init_button_pio], [disable_button_pio],
      the interrupt side of the button test;
    - [TestButtons], the polling loop that waits until SW0-SW3 have each
      been seen once;
    - [MenuEnd], [TestLEDs], [SevenSegControl], [UARTSendLots] and
      [UARTReceiveChars], which
      read a key with [GetInputString] and [sscanf];
    - [sevenseg_set_hex], [SevenSegCount] and the seven segment title of
      [Test_Func].

    C [int] values are [Z]; [alt_u8] values are [Z] with the truncation of
    every assignment written out ([to_u8]).  The [volatile int edge_capture]
    global is a field of the machine state, so that the interrupt handler and
    the polling loop act on one shared cell. *)

From Stdlib Require Import ZArith List Bool Lia Permutation.
From Stdlib Require Import Strings.Byte.
Import ListNotations.
Open Scope Z_scope.

(* ------------------------------------------------------------------ *)
(** ** The button PIO and the interrupt table *)

Module Hw.

(** Modelled from the spec: the Peripheral Register Interface.  The register
    access macros of [altera_avalon_pio_regs.h] are not part of the source
    file; the button PIO is taken to be two registers, the edge-capture
    register and the interrupt mask. *)
Record pio : Type := mkPio {
  edge_cap : Z;
  irq_mask : Z
}.

(** Modelled from the spec: [read_edge_capture()].  Reading has no effect on
    the register. *)
Definition IORD_ALTERA_AVALON_PIO_EDGE_CAP (p : pio) : Z := edge_cap p.

(** Modelled from the spec: [clear_edge_capture()], a register write; the
    program only ever writes 0. *)
Definition IOWR_ALTERA_AVALON_PIO_EDGE_CAP (data : Z) (p : pio) : pio :=
  {| edge_cap := data; irq_mask := irq_mask p |}.

(** Modelled from the spec: [set_interrupt_mask(bitmask)]. *)
Definition IOWR_ALTERA_AVALON_PIO_IRQ_MASK (data : Z) (p : pio) : pio :=
  {| edge_cap := edge_cap p; irq_mask := data |}.

(** The [void*] values the program passes around: [NULL] and the address of
    the global [edge_capture]. *)
Inductive pointer : Type :=
| NULL
| addr_edge_capture.

(** Modelled from the spec: the slot of the interrupt-dispatch facility for
    [BUTTON_PIO_IRQ].  The only handler the program ever registers is
    [handle_button_interrupts]; a null handler empties the slot. *)
Inductive irq_slot : Type :=
| Unregistered
| Registered (context : pointer).

(** What both contexts (interrupt and foreground) can see. *)
Record machine : Type := mkMachine {
  edge_capture : Z;          (* volatile int edge_capture *)
  button_pio : pio;
  button_irq : irq_slot
}.

Definition with_pio (f : pio -> pio) (m : machine) : machine :=
  {| edge_capture := edge_capture m;
     button_pio := f (button_pio m);
     button_irq := button_irq m |}.

Definition with_edge_capture (v : Z) (m : machine) : machine :=
  {| edge_capture := v;
     button_pio := button_pio m;
     button_irq := button_irq m |}.

(** [*p = v] for a [volatile int *p]: a store through [NULL] is a fault. *)
Definition store_int (p : pointer) (v : Z) (m : machine) : option machine :=
  match p with
  | NULL => None
  | addr_edge_capture => Some (with_edge_capture v m)
  end.

(** Modelled from the spec: [register_handler(callback, context)] and
    [unregister_handler()], i.e. [alt_irq_register] / [alt_ic_isr_register]. *)
Definition alt_irq_register (slot : irq_slot) (m : machine) : machine :=
  {| edge_capture := edge_capture m;
     button_pio := button_pio m;
     button_irq := slot |}.

End Hw.

Import Hw.

(* ------------------------------------------------------------------ *)
(** ** Button/Switch PIO functions *)

(** [handle_button_interrupts(context)]: copy the edge-capture register to
    [*context], reset the register, read it once more to delay the exit. *)
Definition handle_button_interrupts (context : pointer) (m : machine)
  : option machine :=
  let edge_capture_ptr := context in
  match store_int edge_capture_ptr
          (IORD_ALTERA_AVALON_PIO_EDGE_CAP (button_pio m)) m with
  | None => None
  | Some m1 =>
      let m2 := with_pio (IOWR_ALTERA_AVALON_PIO_EDGE_CAP 0) m1 in
      let _ := IORD_ALTERA_AVALON_PIO_EDGE_CAP (button_pio m2) in
      Some m2
  end.

(** [init_button_pio()]. *)
Definition init_button_pio (m : machine) : machine :=
  let edge_capture_ptr := addr_edge_capture in
  let m1 := with_pio (IOWR_ALTERA_AVALON_PIO_IRQ_MASK 0xf) m in
  let m2 := with_pio (IOWR_ALTERA_AVALON_PIO_EDGE_CAP 0x0) m1 in
  alt_irq_register (Registered edge_capture_ptr) m2.

(** [disable_button_pio()]. *)
Definition disable_button_pio (m : machine) : machine :=
  let m1 := with_pio (IOWR_ALTERA_AVALON_PIO_IRQ_MASK 0x0) m in
  alt_irq_register Unregistered m1.

(** Modelled from the spec: the interrupt source.  The PIO raises its
    interrupt while an enabled line has a latched edge; the dispatch facility
    then calls the registered handler with its context, and does nothing when
    the slot is empty. *)
Definition irq_asserted (p : pio) : bool :=
  negb (Z.land (edge_cap p) (irq_mask p) =? 0).

Definition alt_irq_dispatch (m : machine) : option machine :=
  if irq_asserted (button_pio m) then
    match button_irq m with
    | Registered context => handle_button_interrupts context m
    | Unregistered => Some m
    end
  else Some m.

(** Modelled from the spec: a transition on the lines [v] is latched into the
    edge-capture register, then the interrupt (if any) is served. *)
Definition latch (v : Z) (p : pio) : pio :=
  {| edge_cap := Z.lor (edge_cap p) v; irq_mask := irq_mask p |}.

Definition press (v : Z) (m : machine) : option machine :=
  alt_irq_dispatch (with_pio (latch v) m).

(** Several transitions in a row, with no poll in between. *)
Fixpoint presses (vs : list Z) (m : machine) : option machine :=
  match vs with
  | [] => Some m
  | v :: vs' =>
      match press v m with
      | None => None
      | Some m' => presses vs' m'
      end
  end.

(* ------------------------------------------------------------------ *)
(** ** TestButtons *)

(** What [TestButtons] prints. *)
Inductive message : Type :=
| LoopAnnounce        (* "A loop will be run until all buttons/switches ..." *)
| IgnoreNote          (* "NOTE:  Once a button press has been detected ..." *)
| Button1Pressed      (* "Button 1 (SW0) Pressed." *)
| Button2Pressed      (* "Button 2 (SW1) Pressed." *)
| Button3Pressed      (* "Button 3 (SW2) Pressed." *)
| Button4Pressed      (* "Button 4 (SW3) Pressed." *)
| AllPressed.         (* "All Buttons (SW0-SW3) were pressed, at least, once." *)

(** The button a message reports, numbered as in its text. *)
Definition line_of (msg : message) : option Z :=
  match msg with
  | Button1Pressed => Some 1
  | Button2Pressed => Some 2
  | Button3Pressed => Some 3
  | Button4Pressed => Some 4
  | _ => None
  end.

(** The locals of [TestButtons]. *)
Record locals : Type := mkLocals {
  buttons_tested : Z;        (* alt_u8 *)
  all_tested : Z;            (* alt_u8 *)
  last_tested : Z            (* int *)
}.

Definition to_u8 (z : Z) : Z := z mod 256.

Definition set_buttons_tested (v : Z) (l : locals) : locals :=
  {| buttons_tested := to_u8 v;
     all_tested := all_tested l;
     last_tested := last_tested l |}.

Definition set_last_tested (v : Z) (l : locals) : locals :=
  {| buttons_tested := buttons_tested l;
     all_tested := all_tested l;
     last_tested := v |}.

(** One pass through the body of the [while] loop.  [edge_capture] is
    volatile and the body names it three times: [r1] is the value compared
    with [last_tested], [r2] the value assigned to it, [r3] the value the
    [switch] dispatches on.  The result is the new locals and what was
    printed; every [continue] and [break] leads back to the loop test. *)
Definition loop_body (r1 r2 r3 : Z) (l : locals) : locals * list message :=
  if last_tested l =? r1 then (l, [])
  else
    let l := set_last_tested r2 l in
    if r3 =? 0x1 then
      if negb (Z.land (buttons_tested l) 0x1 =? 0) then (l, [])
      else (set_buttons_tested (Z.lor (buttons_tested l) 0x1) l,
            [Button1Pressed])
    else if r3 =? 0x2 then
      if negb (Z.land (buttons_tested l) 0x2 =? 0) then (l, [])
      else (set_buttons_tested (Z.lor (buttons_tested l) 0x2) l,
            [Button2Pressed])
    else if r3 =? 0x4 then
      if negb (Z.land (buttons_tested l) 0x4 =? 0) then (l, [])
      else (set_buttons_tested (Z.lor (buttons_tested l) 0x4) l,
            [Button3Pressed])
    else if r3 =? 0x8 then
      if negb (Z.land (buttons_tested l) 0x8 =? 0) then (l, [])
      else (set_buttons_tested (Z.lor (buttons_tested l) 0x8) l,
            [Button4Pressed])
    else (l, []).

(** The whole program state while [TestButtons] runs. *)
Record world : Type := mkWorld {
  hw : machine;
  vars : locals;
  stdout : list message
}.

(** One pass of the loop body with no interrupt served during the pass: the
    three reads see the same [edge_capture]. *)
Definition poll_once (w : world) : world :=
  let v := edge_capture (hw w) in
  let (l, out) := loop_body v v v (vars w) in
  {| hw := hw w; vars := l; stdout := stdout w ++ out |}.

(** The loop test, [buttons_tested != all_tested]. *)
Definition loop_test (l : locals) : bool :=
  negb (buttons_tested l =? all_tested l).

(** The states of the spec's Button Test State Machine. *)
Inductive fsm : Type := Running | Complete.

Definition fsm_state (w : world) : fsm :=
  if loop_test (vars w) then Running else Complete.

(** Lines 483-503: arming.  The locals are uninitialised on entry. *)
Definition TestButtons_init (m : machine) : world :=
  let m := init_button_pio m in
  let buttons_tested := to_u8 0x0 in
  let all_tested := to_u8 0xf in
  let m := with_edge_capture 0 m in
  let last_tested := 0xffff in
  {| hw := m;
     vars := {| buttons_tested := buttons_tested;
                all_tested := all_tested;
                last_tested := last_tested |};
     stdout := [LoopAnnounce; IgnoreNote] |}.

(** The interrupt context preempting [TestButtons]: the handler is handed
    the machine, never the locals or the output of the foreground. *)
Definition interrupts (burst : list Z) (w : world) : option world :=
  match presses burst (hw w) with
  | None => None
  | Some m => Some {| hw := m; vars := vars w; stdout := stdout w |}
  end.

(** How a run of the loop over a finite schedule ends. *)
Inductive run : Type :=
| Exited (w : world)      (* the loop test failed: the loop is left *)
| Spinning (w : world)    (* schedule used up, the loop is still polling *)
| Fault.                  (* a store through a null pointer *)

(** Lines 509-566.  The schedule gives, for each pass of the loop, the
    transitions served by the interrupt handler since the previous pass
    (none, one, or several: only the last capture survives). *)
Fixpoint TestButtons_loop (sched : list (list Z)) (w : world) : run :=
  if loop_test (vars w) then
    match sched with
    | [] => Spinning w
    | burst :: rest =>
        match interrupts burst w with
        | None => Fault
        | Some w' => TestButtons_loop rest (poll_once w')
        end
    end
  else Exited w.

(** Lines 567-572: teardown ([usleep] only waits). *)
Definition TestButtons_exit (w : world) : world :=
  {| hw := disable_button_pio (hw w);
     vars := vars w;
     stdout := stdout w ++ [AllPressed] |}.

Definition TestButtons (sched : list (list Z)) (m : machine) : run :=
  match TestButtons_loop sched (TestButtons_init m) with
  | Exited w => Exited (TestButtons_exit w)
  | r => r
  end.

(** Each event of [evs] is served on its own and polled once. *)
Definition deliver (evs : list Z) : list (list Z) :=
  map (fun v => [v]) evs.

Definition line_messages (out : list message) : list Z :=
  flat_map (fun msg => match line_of msg with
                       | Some k => [k]
                       | None => []
                       end) out.

(* ------------------------------------------------------------------ *)
(** ** The menu line reader *)

Module Menu.

(** ['\n'] and ['\r'] as [int] constants, and [EOF]. *)
Definition NL : Z := 10.
Definition CR : Z := 13.
Definition EOF : Z := -1.

(** [getc(stream)]: the next byte as a value 0..255, or [EOF] once the
    stream is used up. *)
Definition getc (stream : list byte) : Z * list byte :=
  match stream with
  | [] => (EOF, [])
  | b :: rest => (Z.of_N (Byte.to_N b), rest)
  end.

(** The conversion of [entry[i] = ch]: an [int] stored into a [char], kept
    here as the byte value 0..255. *)
Definition to_char (ch : Z) : Z := ch mod 256.

(** [entry[i] = c]; a store outside the buffer is reported, not performed. *)
Fixpoint store_at (entry : list Z) (i : nat) (c : Z) : option (list Z) :=
  match entry, i with
  | [], _ => None
  | _ :: tl, O => Some (c :: tl)
  | hd :: tl, S j =>
      match store_at tl j c with
      | None => None
      | Some tl' => Some (hd :: tl')
      end
  end.

Definition store_char (entry : list Z) (i : Z) (c : Z) : option (list Z) :=
  if i <? 0 then None else store_at entry (Z.to_nat i) c.

(** What a call leaves behind: the buffer, the unread rest of the stream and
    the stores made, oldest first, as (index, character). *)
Record returned : Type := mkReturned {
  buffer : list Z;
  unread : list byte;
  stores : list (Z * Z)
}.

Inductive outcome : Type :=
| Return (r : returned)
| OutOfBounds              (* a store outside [entry] *)
| OutOfFuel.

(** The [for] loop of [GetInputString], one pass per unit of fuel. *)
Fixpoint GetInputString_loop (fuel : nat) (entry : list Z) (size : Z)
    (i ch : Z) (stream : list byte) (done : list (Z * Z)) : outcome :=
  if negb (ch =? NL) && (i <? size) then
    match fuel with
    | O => OutOfFuel
    | S fuel' =>
        let (ch, stream) := getc stream in
        if negb (ch =? CR) then
          match store_char entry i (to_char ch) with
          | None => OutOfBounds
          | Some entry' =>
              GetInputString_loop fuel' entry' size (i + 1) ch stream
                (done ++ [(i, to_char ch)])
          end
        else GetInputString_loop fuel' entry size i ch stream done
    end
  else Return {| buffer := entry; unread := stream; stores := done |}.

(** [GetInputString(entry, size, stream)].  Every pass either takes a byte
    off the stream or, at end of file, stores [EOF] and advances [i], so
    [length stream + size] passes are enough. *)
Definition GetInputString (entry : list Z) (size : Z) (stream : list byte)
  : outcome :=
  GetInputString_loop (length stream + Z.to_nat size) entry size 0 0 stream [].

End Menu.

Import Menu.

(* ------------------------------------------------------------------ *)
(** ** Specification vocabulary *)

(** The type invariant of an [alt_u8]. *)
Definition is_u8 (z : Z) : Prop := 0 <= z < 256.

(** Every line recorded in [a] is recorded in [b]. *)
Definition mask_le (a b : Z) : Prop :=
  forall i, Z.testbit a i = true -> Z.testbit b i = true.

(** The single-bit patterns of the four lines. *)
Definition single_line (v : Z) : Prop := v = 0x1 \/ v = 0x2 \/ v = 0x4 \/ v = 0x8.

Definition single_lineb (v : Z) : bool :=
  (v =? 0x1) || (v =? 0x2) || (v =? 0x4) || (v =? 0x8).

(** The message [TestButtons] prints for a single-bit pattern. *)
Definition message_of_bit (v : Z) : message :=
  if v =? 0x1 then Button1Pressed
  else if v =? 0x2 then Button2Pressed
  else if v =? 0x4 then Button3Pressed
  else Button4Pressed.

Definition world_of (r : run) : option world :=
  match r with
  | Exited w | Spinning w => Some w
  | Fault => None
  end.

(** The machine as [init_button_pio] leaves it, with [edge_capture] reset. *)
Definition armed (m : machine) : Prop :=
  button_irq m = Registered addr_edge_capture /\
  irq_mask (button_pio m) = 0xf /\
  edge_cap (button_pio m) = 0.

(** The handler is registered on [edge_capture] and all four lines are
    enabled. *)
Definition listening (m : machine) : Prop :=
  button_irq m = Registered addr_edge_capture /\
  irq_mask (button_pio m) = 0xf.

(** The machine right after a capture of [v] has been served. *)
Definition served (v : Z) : machine :=
  {| edge_capture := v;
     button_pio := {| edge_cap := 0; irq_mask := 0xf |};
     button_irq := Registered addr_edge_capture |}.

(** The values a four-line edge-capture register can hold. *)
Definition four_bit (v : Z) : Prop := 0 <= v <= 0xf.

(** The button number printed for a single-bit pattern. *)
Definition line_number (v : Z) : Z := Z.log2 v + 1.

(** How often line [k] has been reported. *)
Definition reported (k : Z) (out : list message) : nat :=
  count_occ Z.eq_dec (line_messages out) k.

(** Each line has been reported once if its bit is in [buttons_tested], and
    not at all otherwise. *)
Definition reports_match (w : world) : Prop :=
  is_u8 (buttons_tested (vars w)) /\
  forall v, single_line v ->
    reported (line_number v) (stdout w) =
      if Z.land (buttons_tested (vars w)) v =? 0 then 0%nat else 1%nat.

(** After a pass with stable reads, a single-bit [last_tested] is a line
    already recorded. *)
Definition last_known (l : locals) : Prop :=
  single_line (last_tested l) ->
  Z.land (buttons_tested l) (last_tested l) <> 0.

(** What every pass of a run over four-line events preserves. *)
Definition steady (w : world) : Prop :=
  armed (hw w) /\ reports_match w /\ last_known (vars w).

(** The machine as [disable_button_pio] leaves it. *)
Definition disarmed (m : machine) : Prop :=
  irq_mask (button_pio m) = 0 /\ button_irq m = Unregistered.

(** The stores made so far are at indices 0, 1, 2, ... *)
Definition indices (n : nat) : list Z := map Z.of_nat (seq 0 n).

(** A stored character: a byte value other than ['\r']. *)
Definition is_char (p : Z * Z) : Prop := 0 <= snd p < 256 /\ snd p <> CR.

(** A store of anything but ['\n']. *)
Definition not_newline (p : Z * Z) : Prop := snd p <> NL.

(** The last store put a ['\n'] into the buffer. *)
Definition ends_line (done : list (Z * Z)) : Prop :=
  exists before i, done = before ++ [(i, NL)].

(** What holds each time the loop test of [GetInputString] is reached:
    [entry0] is the buffer the caller passed, [cur] the buffer now. *)
Record gis_invariant (entry0 : list Z) (size : Z) (cur : list Z) (i ch : Z)
    (done : list (Z * Z)) : Prop := {
  gis_count : i = Z.of_nat (length done);
  gis_limit : i <= Z.max 0 size;
  gis_indices : map fst done = indices (length done);
  gis_chars : Forall is_char done;
  gis_buffer : cur = map snd done ++ skipn (length done) entry0;
  gis_open : ch <> NL -> Forall not_newline done;
  gis_closed : ch = NL -> ends_line done;
  gis_before : Forall not_newline (removelast done)
}.

(** What holds when [GetInputString] returns. *)
Record gis_post (entry0 : list Z) (size : Z) (r : returned) : Prop := {
  post_indices : map fst (stores r) = indices (length (stores r));
  post_count : Z.of_nat (length (stores r)) <= Z.max 0 size;
  post_chars : Forall is_char (stores r);
  post_buffer :
    buffer r = map snd (stores r) ++ skipn (length (stores r)) entry0;
  post_before : Forall not_newline (removelast (stores r));
  post_stop :
    ends_line (stores r) \/ Z.of_nat (length (stores r)) = Z.max 0 size
}.

(* ------------------------------------------------------------------ *)
(** ** Further vocabulary for the button test *)

(** [all_tested] is the constant 0xf and [buttons_tested] holds line bits
    only. *)
Definition within_lines (l : locals) : Prop :=
  all_tested l = 0xf /\ four_bit (buttons_tested l).

(** The line with pattern [v] is recorded in [buttons_tested]. *)
Definition credited (v : Z) (w : world) : Prop :=
  Z.land (buttons_tested (vars w)) v <> 0.

(** What a run over four-line events keeps, pass after pass. *)
Definition sound (w : world) : Prop :=
  steady w /\ within_lines (vars w).

(* ------------------------------------------------------------------ *)
(** ** Further vocabulary for the line reader *)

(** The value [getc] returns for a byte of the stream. *)
Definition byte_val (b : byte) : Z := Z.of_N (Byte.to_N b).

(** What [GetInputString] keeps of a piece of input: every character but
    ['\r']. *)
Definition chars_of (bs : list byte) : list Z :=
  filter (fun c => negb (c =? CR)) (map byte_val bs).

(** Stores of the characters [cs] at the indices [i], [i + 1], ... *)
Fixpoint numbered (i : Z) (cs : list Z) : list (Z * Z) :=
  match cs with
  | [] => []
  | c :: cs' => (i, c) :: numbered (i + 1) cs'
  end.

(* ------------------------------------------------------------------ *)
(** ** Reading a key: the menu and the tests that wait for ['q'] *)

(** A [char] variable holds a byte; an expression sees it promoted to [int],
    negative from 0x80 on where [char] is signed.  The source does not fix
    the signedness, so it is a parameter of what follows. *)
Definition char_int (signed_char : bool) (b : Z) : Z :=
  if signed_char && (128 <=? b) then b - 256 else b.

(** [sscanf(entry, "%c\n", &ch)], as (result, new [ch]).  [%c] takes the
    first character of the string whatever it is; when the string is empty
    (a NUL comes first) nothing is converted, [ch] keeps its value and the
    result is [EOF].  The white space directive after it assigns nothing,
    so the characters behind the first ([GetInputString] writes no
    terminating NUL) do not bear on the result. *)
Definition sscanf_c (entry : list Z) (ch : Z) : Z * Z :=
  match entry with
  | [] => (EOF, ch)
  | c :: _ => if c =? 0 then (EOF, ch) else (1, c)
  end.

(** The [entry] buffer and the [static char ch] of a function that reads
    keys. *)
Record key_vars : Type := mkKeyVars {
  kv_entry : list Z;         (* char entry[4] *)
  kv_ch : Z                  (* static char ch *)
}.

(** What the menu and the tests print. *)
Inductive print : Type :=
| PrintExit                      (* "     q:  Exit\n" *)
| PrintRule                      (* "----------------------------------\n" *)
| PrintSelect (low high : Z)     (* "\nSelect Choice (%c-%c): [Followed by <enter>]" *)
| PrintLedsOn                    (* "\nAll LEDs should now be on.\n" *)
| PrintPressQ                    (* "\tPlease press 'q' [Followed by <enter>] to exit this test.\n" *)
| PrintLedsExit                  (* ".....Exiting LED Test.\n" *)
| PrintNewline                   (* "\n" *)
| PrintSegments (row : nat)      (* the nine rows of the segment picture *)
| PrintSegPressQ                 (* "Press 'q' [Followed by <enter>] to exit this test.\n" *)
| PrintUartPrompt                (* "\n\nPress character (and <enter>), or <space> (and <enter>) for mix: " *)
| PrintEcho (c : Z)              (* "%c\n\n" *)
| PrintChar (c : Z)              (* "%c" *)
| PrintReceivePrompt             (* "\n\nEnter a character (followed by <enter>); ..." *)
| PrintKey (shown : Z) (value : Z).   (* "'%c' 0x%02x %d\n" *)

(** [MenuEnd(lowLetter, highLetter)]: the result, the statics, the unread
    input and the output; [None] when [GetInputString] does not return. *)
Definition MenuEnd (signed_char : bool) (lowLetter highLetter : Z)
    (st : key_vars) (stdin : list byte)
  : option (Z * key_vars * list byte * list print) :=
  let out := [PrintExit; PrintRule; PrintSelect lowLetter highLetter] in
  match GetInputString (kv_entry st) 4 stdin with
  | Return r =>
      let entry := buffer r in
      let (n, ch) := sscanf_c entry (kv_ch st) in
      let ch :=
        if negb (n =? 0) then
          let ch :=
            if (65 <=? char_int signed_char ch) && (char_int signed_char ch <=? 90)
            then to_char (char_int signed_char ch + (97 - 65))
            else ch in
          if char_int signed_char ch =? 27 then 113 else ch
        else ch in
      Some (char_int signed_char ch,
            {| kv_entry := entry; kv_ch := ch |}, unread r, out)
  | _ => None
  end.

(** The key a line of input stands for: its first character other than
    ['\r'], the ['\n'] itself for an empty line. *)
Definition key_of_line (line : list byte) : Z := hd NL (chars_of line).

(** The key a whole input stands for, 0xff at end of file. *)
Definition key_of_input (stdin : list byte) : Z := hd 255 (chars_of stdin).

(** What [MenuEnd] makes of the key in [ch]: capitals become small letters
    and Escape becomes ['q']. *)
Definition menu_key (c : Z) : Z :=
  if (65 <=? c) && (c <=? 90) then c + 32
  else if c =? 27 then 113
  else c.

(* ------------------------------------------------------------------ *)
(** ** Seven segment functions *)

(** The data PIOs the tests write to, and a write of
    [IOWR_ALTERA_AVALON_PIO_DATA(base, data)]. *)
Inductive device : Type :=
| LED_PIO_BASE
| SEVEN_SEG_PIO_BASE
| SEVEN_SEG_PIO_1_BASE
| RED_LED_BASE.

Definition pio_write : Type := (device * Z)%type.

Definition to_u32 (z : Z) : Z := z mod 2 ^ 32.

(** [static alt_u8 segments[16]] of [sevenseg_set_hex]. *)
Definition segments : list Z :=
  [0x40; 0x79; 0x24; 0x30; 0x19; 0x12; 0x02; 0x78; 0x00; 0x18;  (* 0-9 *)
   0x08; 0x03; 0x46; 0x21; 0x06; 0x0E].                          (* a-f *)

(** [segments[i]] for an index the code computes with [& 15]. *)
Definition segment (i : Z) : Z := nth (Z.to_nat i) segments 0.

(** [sevenseg_set_hex(hex)]: the word it computes and writes. *)
Definition sevenseg_data (hex : Z) : Z :=
  to_u32 (Z.lor (segment (Z.land hex 15))
                (Z.shiftl (segment (Z.land (Z.shiftr hex 4) 15)) 7)).

Definition sevenseg_set_hex (hex : Z) : pio_write :=
  let data := sevenseg_data hex in
  (SEVEN_SEG_PIO_BASE, data).

(** The [for] loop of [SevenSegCount], one pass per unit of fuel; [count] is
    an [alt_u32] and is cut to [alt_u8] when passed on ([usleep] only
    waits). *)
Fixpoint SevenSegCount_loop (fuel : nat) (count : Z) (writes : list pio_write)
  : option (list pio_write) :=
  if count <=? 0xff then
    match fuel with
    | O => None
    | S fuel' =>
        SevenSegCount_loop fuel' (to_u32 (count + 1))
          (writes ++ [sevenseg_set_hex (to_u8 count)])
    end
  else Some writes.

Definition SevenSegCount (fuel : nat) : option (list pio_write) :=
  SevenSegCount_loop fuel 0 [].

(** Reading a display word back: the position of a seven-bit pattern in
    [segments], and the two-digit value of a word. *)
Fixpoint position (p : Z) (table : list Z) (i : Z) : Z :=
  match table with
  | [] => i
  | q :: table' => if q =? p then i else position p table' (i + 1)
  end.

Definition sevenseg_read (data : Z) : Z :=
  16 * position (Z.shiftr data 7) segments 0
  + position (Z.land data 127) segments 0.

(* ------------------------------------------------------------------ *)
(** ** Tests that read keys *)

(** How a test ends: its statics, the unread input, its PIO writes and its
    output. *)
Record test_end : Type := mkTestEnd {
  end_vars : key_vars;
  end_stdin : list byte;
  end_writes : list pio_write;
  end_stdout : list print
}.

(** The [do ... while (ch != 'q')] loop of [TestLEDs], one pass per unit of
    fuel. *)
Fixpoint TestLEDs_loop (signed_char : bool) (fuel : nat) (st : key_vars)
    (stdin : list byte) : option (key_vars * list byte) :=
  match fuel with
  | O => None
  | S fuel' =>
      match GetInputString (kv_entry st) 4 stdin with
      | Return r =>
          let entry := buffer r in
          let (_, ch) := sscanf_c entry (kv_ch st) in
          let st' := {| kv_entry := entry; kv_ch := ch |} in
          if negb (char_int signed_char ch =? 113)
          then TestLEDs_loop signed_char fuel' st' (unread r)
          else Some (st', unread r)
      | _ => None
      end
  end.

(** [TestLEDs()]. *)
Definition TestLEDs (signed_char : bool) (fuel : nat) (st : key_vars)
    (stdin : list byte) : option test_end :=
  let led := to_u8 0xff in
  let writes := [(LED_PIO_BASE, led)] in
  let out := [PrintLedsOn; PrintPressQ] in
  match TestLEDs_loop signed_char fuel st stdin with
  | Some (st', stdin') =>
      let led := to_u8 0x0 in
      Some {| end_vars := st';
              end_stdin := stdin';
              end_writes := writes ++ [(LED_PIO_BASE, led)];
              end_stdout := out ++ [PrintLedsExit] |}
  | None => None
  end.

(** The "SSD pattern algorithm" of [SevenSegControl]: the bit a key toggles,
    from the promoted value of [ch]. *)
Definition key_bit (ch : Z) : Z :=
  let keyBit := 0 in
  if (97 <=? ch) && (ch <=? 103) then Z.shiftl 1 (103 - ch)
  else if ch =? 104 then Z.shiftl 1 7
  else if (65 <=? ch) && (ch <=? 71) then Z.shiftl 1 (71 - ch + 8)
  else if ch =? 72 then Z.shiftl 1 15
  else keyBit.

(** The [do ... while (ch != 'q')] loop of [SevenSegControl], one pass per
    unit of fuel. *)
Fixpoint SevenSegControl_loop (signed_char : bool) (fuel : nat) (st : key_vars)
    (bits : Z) (stdin : list byte) (writes : list pio_write)
  : option (key_vars * list byte * list pio_write) :=
  match fuel with
  | O => None
  | S fuel' =>
      match GetInputString (kv_entry st) 4 stdin with
      | Return r =>
          let entry := buffer r in
          let (_, ch) := sscanf_c entry (kv_ch st) in
          let keyBit := key_bit (char_int signed_char ch) in
          let bits := Z.lxor bits keyBit in
          let writes := writes ++ [(SEVEN_SEG_PIO_BASE, bits)] in
          let st' := {| kv_entry := entry; kv_ch := ch |} in
          if negb (char_int signed_char ch =? 113)
          then SevenSegControl_loop signed_char fuel' st' bits (unread r) writes
          else Some (st', unread r, writes)
      | _ => None
      end
  end.

(** [SevenSegControl()]; [entry] is an automatic array, whatever it holds on
    entry is in [kv_entry st]. *)
Definition SevenSegControl (signed_char : bool) (fuel : nat) (st : key_vars)
    (stdin : list byte) : option test_end :=
  let bits := 0xffff in
  let writes := [(SEVEN_SEG_PIO_BASE, bits)] in
  let out := [PrintNewline; PrintNewline] ++ map PrintSegments (seq 0 9)
               ++ [PrintNewline; PrintSegPressQ] in
  match SevenSegControl_loop signed_char fuel st bits stdin writes with
  | Some (st', stdin', writes') =>
      Some {| end_vars := st';
              end_stdin := stdin';
              end_writes := writes';
              end_stdout := out |}
  | None => None
  end.

(** A line that fits the four character buffer with its ['\n']. *)
Definition short_line (line : list byte) : Prop :=
  ~ In x0a%byte line /\ (length (chars_of line) < 4)%nat.

(** Lines as they arrive on the stream. *)
Definition script (lines : list (list byte)) : list byte :=
  concat (map (fun line => line ++ [x0a%byte]) lines).

(** [ch] after a line has been read: the key of the line, or the old [ch]
    when that key is NUL. *)
Definition next_ch (ch : Z) (line : list byte) : Z :=
  if key_of_line line =? 0 then ch else key_of_line line.

(** The values [ch] takes, line after line. *)
Fixpoint keys_from (ch : Z) (lines : list (list byte)) : list Z :=
  match lines with
  | [] => []
  | line :: lines' => next_ch ch line :: keys_from (next_ch ch line) lines'
  end.

(** The words a sequence of keys makes [SevenSegControl] write. *)
Fixpoint toggled (signed_char : bool) (bits : Z) (keys : list Z) : list Z :=
  match keys with
  | [] => []
  | k :: keys' =>
      let bits' := Z.lxor bits (key_bit (char_int signed_char k)) in
      bits' :: toggled signed_char bits' keys'
  end.

(** How many of the keys toggle bit [i]. *)
Definition presses_of (signed_char : bool) (i : Z) (keys : list Z) : nat :=
  length (filter (fun k => key_bit (char_int signed_char k) =? 2 ^ i) keys).

(* ------------------------------------------------------------------ *)
(** ** UART functions *)

(** The inner [for (j = 0; j < 80; j++)] loop of [UARTSendLots], with [n]
    passes left to run. *)
Fixpoint UARTSendLots_chars (signed_char : bool) (mix : Z) (n : nat) (ch : Z)
    (out : list print) : Z * list print :=
  match n with
  | O => (ch, out)
  | S n' =>
      let ch :=
        if negb (mix =? 0) then
          let ch := to_char (char_int signed_char ch + 1) in
          if 127 <=? char_int signed_char ch then 33 else ch
        else ch in
      UARTSendLots_chars signed_char mix n' ch (out ++ [PrintChar ch])
  end.

(** The outer [for (i = 0; i < 100; i++)] loop, with [n] passes left. *)
Fixpoint UARTSendLots_lines (signed_char : bool) (mix : Z) (n : nat) (ch : Z)
    (out : list print) : Z * list print :=
  match n with
  | O => (ch, out)
  | S n' =>
      let (ch, out) := UARTSendLots_chars signed_char mix 80 ch out in
      UARTSendLots_lines signed_char mix n' ch (out ++ [PrintNewline])
  end.

(** [UARTSendLots()]. *)
Definition UARTSendLots (signed_char : bool) (st : key_vars)
    (stdin : list byte) : option test_end :=
  let mix := 0 in
  let out := [PrintUartPrompt] in
  match GetInputString (kv_entry st) 4 stdin with
  | Return r =>
      let entry := buffer r in
      let (_, ch) := sscanf_c entry (kv_ch st) in
      let out := out ++ [PrintEcho ch] in
      let ch := if char_int signed_char ch <? 32 then 46 else ch in
      let mix := if char_int signed_char ch =? 32 then 1 else mix in
      let (ch, out) := UARTSendLots_lines signed_char mix 100 ch out in
      Some {| end_vars := {| kv_entry := entry; kv_ch := ch |};
              end_stdin := unread r;
              end_writes := [];
              end_stdout := out ++ [PrintNewline] |}
  | _ => None
  end.

(** A block of 100 lines of 80 characters, the [k]-th character overall
    being [f k]. *)
Definition block (f : nat -> Z) : list print :=
  concat (map (fun i =>
                 map (fun j => PrintChar (f (80 * i + j)%nat)) (seq 0 80)
                   ++ [PrintNewline])
              (seq 0 100)).

(** The mix of characters: ['!'] to ['~'], over and over. *)
Definition mix_char (k : nat) : Z := 33 + Z.of_nat k mod 94.

(** The [do ... while (ch != 'q')] loop of [UARTReceiveChars], one pass per
    unit of fuel; [chP] is a [static char] that is only written. *)
Fixpoint UARTReceiveChars_loop (signed_char : bool) (fuel : nat)
    (st : key_vars) (stdin : list byte) (out : list print)
  : option (key_vars * list byte * list print) :=
  match fuel with
  | O => None
  | S fuel' =>
      match GetInputString (kv_entry st) 4 stdin with
      | Return r =>
          let entry := buffer r in
          let (_, ch) := sscanf_c entry (kv_ch st) in
          let chP :=
            to_char (if 32 <=? char_int signed_char ch
                     then char_int signed_char ch else 46) in
          let out := out ++ [PrintKey chP (char_int signed_char ch)] in
          let st' := {| kv_entry := entry; kv_ch := ch |} in
          if negb (char_int signed_char ch =? 113)
          then UARTReceiveChars_loop signed_char fuel' st' (unread r) out
          else Some (st', unread r, out)
      | _ => None
      end
  end.

(** [UARTReceiveChars()]. *)
Definition UARTReceiveChars (signed_char : bool) (fuel : nat) (st : key_vars)
    (stdin : list byte) : option test_end :=
  let out := [PrintReceivePrompt] in
  match UARTReceiveChars_loop signed_char fuel st stdin out with
  | Some (st', stdin', out') =>
      Some {| end_vars := st';
              end_stdin := stdin';
              end_writes := [];
              end_stdout := out' |}
  | None => None
  end.

(** The character [UARTReceiveChars] shows for a key: the key, or ['.'] for a
    key below 32 as a [char]. *)
Definition shown (signed_char : bool) (key : Z) : Z :=
  if 32 <=? char_int signed_char key then key else 46.

(* ------------------------------------------------------------------ *)
(** ** The title of [Test_Func] *)

(** [x << 7] on an [alt_u32]. *)
Definition shl7 (x : Z) : Z := to_u32 (Z.shiftl x 7).

(** Lines 887-896 of [Test_Func]: what one pass of its loop does with the
    two seven segment PIOs, given the switches read from [BUTTON_PIO_BASE]
    and the globals [seven_seg_title_1] and [seven_seg_title_2]; the result
    is the new globals and the writes.  In the first assignment [0x48>>7] is
    a shift of the constant, as C parses it. *)
Definition Test_Func_titles (switches : Z)
    (seven_seg_title_1 seven_seg_title_2 : Z) : Z * Z * list pio_write :=
  if Z.land switches 0x00080 =? 0x00080 then
    let seven_seg_title_1 :=
      to_u32
        (Z.lor (shl7 (Z.lor (shl7 (Z.lor (shl7 (Z.lor seven_seg_title_1 0x06))
                                     0x46))
                        0x06))
               (Z.shiftr 0x48 7)) in
    let w1 := (SEVEN_SEG_PIO_BASE, seven_seg_title_1) in
    let seven_seg_title_2 :=
      to_u32
        (Z.lor (shl7 (Z.lor (shl7 (Z.lor (shl7 (Z.lor seven_seg_title_1 0x3F))
                                     0x78))
                        0x24))
               0x30) in
    let w2 := (SEVEN_SEG_PIO_1_BASE, seven_seg_title_2) in
    (seven_seg_title_1, seven_seg_title_2, [w1; w2])
  else
    (seven_seg_title_1, seven_seg_title_2,
     [(SEVEN_SEG_PIO_BASE, 0xfffffff); (SEVEN_SEG_PIO_1_BASE, 0xfffffff)]).

(** The seven-bit pattern of digit [k] of a display word, digit 0 being the
    lowest. *)
Definition digit (k : Z) (word : Z) : Z := (word / 2 ^ (7 * k)) mod 128.

(* ------------------------------------------------------------------ *)
(** ** Bit arithmetic on [alt_u8] *)

Lemma single_lineb_spec v : single_lineb v = true <-> single_line v.
Proof.
  unfold single_lineb, single_line.
  rewrite !orb_true_iff, !Z.eqb_eq. tauto.
Qed.

Lemma lor_below_pow2 a b n :
  0 <= n -> 0 <= a < 2 ^ n -> 0 <= b < 2 ^ n -> 0 <= Z.lor a b < 2 ^ n.
Proof.
  intros Hn Ha Hb.
  assert (H0 : 0 <= Z.lor a b) by (apply Z.lor_nonneg; lia).
  split; [exact H0|].
  destruct (Z.eq_dec (Z.lor a b) 0) as [E|E].
  - rewrite E. apply Z.pow_pos_nonneg; lia.
  - apply Z.log2_lt_pow2; [lia|].
    rewrite Z.log2_lor by lia.
    assert (La : Z.log2 a < n \/ a = 0).
    { destruct (Z.eq_dec a 0); [now right|left].
      apply Z.log2_lt_pow2; lia. }
    assert (Lb : Z.log2 b < n \/ b = 0).
    { destruct (Z.eq_dec b 0); [now right|left].
      apply Z.log2_lt_pow2; lia. }
    pose proof (Z.log2_nonneg a). pose proof (Z.log2_nonneg b).
    destruct La as [La|La], Lb as [Lb|Lb]; subst;
      rewrite ?Z.lor_0_l, ?Z.lor_0_r in E; cbn [Z.log2] in *; lia.
Qed.

Lemma lor_u8 b k : is_u8 b -> is_u8 k -> to_u8 (Z.lor b k) = Z.lor b k.
Proof.
  unfold is_u8, to_u8. intros Hb Hk.
  apply Z.mod_small.
  change 256 with (2 ^ 8). apply lor_below_pow2; [lia| |]; assumption.
Qed.

Lemma lor_is_u8 b k : is_u8 b -> is_u8 k -> is_u8 (Z.lor b k).
Proof.
  unfold is_u8. intros Hb Hk.
  change 256 with (2 ^ 8). apply lor_below_pow2; [lia| |]; assumption.
Qed.

Lemma single_line_u8 k : single_line k -> is_u8 k.
Proof. unfold single_line, is_u8. lia. Qed.

Lemma mask_le_refl a : mask_le a a.
Proof. intros i H. exact H. Qed.

Lemma mask_le_trans a b c : mask_le a b -> mask_le b c -> mask_le a c.
Proof. intros Hab Hbc i H. apply Hbc, Hab, H. Qed.

Lemma mask_le_lor a k : mask_le a (Z.lor a k).
Proof. intros i H. rewrite Z.lor_spec, H. reflexivity. Qed.

(* ------------------------------------------------------------------ *)
(** ** The four ways through the loop body *)

Section LoopBody.

Variables r1 r2 r3 : Z.
Variable l : locals.

Lemma loop_body_same :
  last_tested l = r1 -> loop_body r1 r2 r3 l = (l, []).
Proof.
  intros E. unfold loop_body.
  apply Z.eqb_eq in E. rewrite E. reflexivity.
Qed.

Hypothesis fresh_value : last_tested l <> r1.

Lemma loop_body_no_line :
  ~ single_line r3 -> loop_body r1 r2 r3 l = (set_last_tested r2 l, []).
Proof.
  intros N. unfold loop_body.
  apply Z.eqb_neq in fresh_value. rewrite fresh_value.
  unfold single_line in N.
  destruct (Z.eqb_spec r3 1); [tauto|].
  destruct (Z.eqb_spec r3 2); [tauto|].
  destruct (Z.eqb_spec r3 4); [tauto|].
  destruct (Z.eqb_spec r3 8); [tauto|].
  reflexivity.
Qed.

Lemma loop_body_known_line :
  single_line r3 -> Z.land (buttons_tested l) r3 <> 0 ->
  loop_body r1 r2 r3 l = (set_last_tested r2 l, []).
Proof.
  intros S B. unfold loop_body.
  apply Z.eqb_neq in fresh_value. rewrite fresh_value.
  apply Z.eqb_neq in B.
  destruct S as [-> | [-> | [-> | ->]]]; cbn [Z.eqb Pos.eqb];
    cbn [set_last_tested buttons_tested]; rewrite B; reflexivity.
Qed.

Lemma loop_body_new_line :
  single_line r3 -> Z.land (buttons_tested l) r3 = 0 ->
  loop_body r1 r2 r3 l =
    (set_buttons_tested (Z.lor (buttons_tested l) r3) (set_last_tested r2 l),
     [message_of_bit r3]).
Proof.
  intros S B. unfold loop_body.
  apply Z.eqb_neq in fresh_value. rewrite fresh_value.
  apply Z.eqb_eq in B.
  destruct S as [-> | [-> | [-> | ->]]]; cbn [Z.eqb Pos.eqb];
    cbn [set_last_tested buttons_tested]; rewrite B; reflexivity.
Qed.

End LoopBody.

(** The loop body, case by case. *)
Lemma loop_body_cases r1 r2 r3 l :
  (last_tested l = r1 /\ loop_body r1 r2 r3 l = (l, [])) \/
  (last_tested l <> r1 /\
   loop_body r1 r2 r3 l = (set_last_tested r2 l, []) /\
   (single_line r3 -> Z.land (buttons_tested l) r3 <> 0)) \/
  (last_tested l <> r1 /\ single_line r3 /\
   Z.land (buttons_tested l) r3 = 0 /\
   loop_body r1 r2 r3 l =
     (set_buttons_tested (Z.lor (buttons_tested l) r3) (set_last_tested r2 l),
      [message_of_bit r3])).
Proof.
  destruct (Z.eq_dec (last_tested l) r1) as [E|N].
  - left. split; [exact E|]. apply loop_body_same, E.
  - right.
    destruct (single_lineb r3) eqn:S.
    + apply single_lineb_spec in S.
      destruct (Z.eq_dec (Z.land (buttons_tested l) r3) 0) as [B|B].
      * right. repeat split; auto. apply loop_body_new_line; assumption.
      * left. repeat split; auto. apply loop_body_known_line; assumption.
    + assert (NS : ~ single_line r3).
      { intros H. apply single_lineb_spec in H. congruence. }
      left. split; [exact N|]. split; [|intros H; contradiction].
      apply loop_body_no_line; assumption.
Qed.

(** The loop body keeps [buttons_tested] an [alt_u8] and only adds lines. *)
Lemma loop_body_grows r1 r2 r3 l :
  is_u8 (buttons_tested l) ->
  is_u8 (buttons_tested (fst (loop_body r1 r2 r3 l))) /\
  mask_le (buttons_tested l) (buttons_tested (fst (loop_body r1 r2 r3 l))).
Proof.
  intros U.
  destruct (loop_body_cases r1 r2 r3 l)
    as [[_ ->] | [[_ [-> _]] | [_ [S [_ ->]]]]]; cbn.
  - split; [exact U|apply mask_le_refl].
  - split; [exact U|apply mask_le_refl].
  - pose proof (single_line_u8 _ S) as K.
    rewrite lor_u8 by assumption.
    split; [apply lor_is_u8; assumption|apply mask_le_lor].
Qed.

Lemma loop_body_all_tested r1 r2 r3 l :
  all_tested (fst (loop_body r1 r2 r3 l)) = all_tested l.
Proof.
  destruct (loop_body_cases r1 r2 r3 l)
    as [[_ ->] | [[_ [-> _]] | [_ [_ [_ ->]]]]]; reflexivity.
Qed.

(* ------------------------------------------------------------------ *)
(** ** The loop over a schedule *)

Lemma loop_exit sched w :
  loop_test (vars w) = false -> TestButtons_loop sched w = Exited w.
Proof. intros H. destruct sched; cbn; rewrite H; reflexivity. Qed.

Lemma loop_app s1 s2 w :
  TestButtons_loop (s1 ++ s2) w =
    match TestButtons_loop s1 w with
    | Spinning w' => TestButtons_loop s2 w'
    | r => r
    end.
Proof.
  revert w. induction s1 as [|burst s1 IH]; intros w.
  - cbn [app TestButtons_loop].
    destruct (loop_test (vars w)) eqn:T; [reflexivity|].
    apply loop_exit, T.
  - cbn [app TestButtons_loop].
    destruct (loop_test (vars w)); [|reflexivity].
    destruct (interrupts burst w); [|reflexivity].
    apply IH.
Qed.

Lemma poll_once_vars w :
  vars (poll_once w) =
    fst (loop_body (edge_capture (hw w)) (edge_capture (hw w))
                   (edge_capture (hw w)) (vars w)).
Proof. unfold poll_once. destruct (loop_body _ _ _ _). reflexivity. Qed.

Lemma poll_once_stdout w :
  stdout (poll_once w) =
    stdout w ++ snd (loop_body (edge_capture (hw w)) (edge_capture (hw w))
                               (edge_capture (hw w)) (vars w)).
Proof. unfold poll_once. destruct (loop_body _ _ _ _). reflexivity. Qed.

Lemma poll_once_hw w : hw (poll_once w) = hw w.
Proof. unfold poll_once. destruct (loop_body _ _ _ _). reflexivity. Qed.

Lemma loop_grows sched : forall w,
  is_u8 (buttons_tested (vars w)) ->
  forall w', world_of (TestButtons_loop sched w) = Some w' ->
  is_u8 (buttons_tested (vars w')) /\
  mask_le (buttons_tested (vars w)) (buttons_tested (vars w')).
Proof.
  induction sched as [|burst rest IH]; intros w U w' R.
  - cbn in R. destruct (loop_test (vars w)); cbn in R;
      injection R as <-; split; auto using mask_le_refl.
  - cbn [TestButtons_loop] in R.
    destruct (loop_test (vars w)).
    + destruct (interrupts burst w) as [w1|] eqn:I; [|discriminate].
      assert (V : vars w1 = vars w).
      { unfold interrupts in I. destruct (presses burst (hw w));
          [injection I as <-; reflexivity|discriminate]. }
      destruct (loop_body_grows (edge_capture (hw w1)) (edge_capture (hw w1))
                  (edge_capture (hw w1)) (vars w1)) as [U1 M1].
      { rewrite V. exact U. }
      assert (U2 : is_u8 (buttons_tested (vars (poll_once w1)))).
      { rewrite poll_once_vars. exact U1. }
      destruct (IH _ U2 _ R) as [U3 M3].
      split; [exact U3|].
      eapply mask_le_trans; [|exact M3].
      rewrite poll_once_vars, <- V. exact M1.
    + cbn in R. injection R as <-. split; auto using mask_le_refl.
Qed.

(* ------------------------------------------------------------------ *)
(** ** The interrupt side *)

Lemma armed_served v : armed (served v).
Proof. repeat split. Qed.

Lemma armed_eq m : armed m -> m = served (edge_capture m).
Proof.
  destruct m as [ec [reg mask] irq]. unfold armed. cbn.
  intros (-> & -> & ->). reflexivity.
Qed.

Lemma handler_on_edge_capture m :
  handle_button_interrupts addr_edge_capture m =
    Some {| edge_capture := edge_cap (button_pio m);
            button_pio := {| edge_cap := 0;
                             irq_mask := irq_mask (button_pio m) |};
            button_irq := button_irq m |}.
Proof. reflexivity. Qed.

Lemma press_armed v m :
  armed m -> Z.land v 0xf <> 0 -> press v m = Some (served v).
Proof.
  intros A N. rewrite (armed_eq m A).
  unfold press, alt_irq_dispatch, irq_asserted. cbn.
  apply Z.eqb_neq in N. rewrite N. reflexivity.
Qed.

Lemma single_line_enabled v : single_line v -> Z.land v 0xf <> 0.
Proof. intros [-> | [-> | [-> | ->]]]; cbn; discriminate. Qed.

Lemma press_listening v m :
  listening m -> exists m', press v m = Some m' /\ listening m'.
Proof.
  destruct m as [ec [reg mask] irq]. unfold listening. cbn.
  intros [-> ->].
  unfold press, alt_irq_dispatch. cbn.
  destruct (irq_asserted _); eexists; split; try reflexivity; split; reflexivity.
Qed.

Lemma presses_listening vs : forall m,
  listening m -> exists m', presses vs m = Some m' /\ listening m'.
Proof.
  induction vs as [|v vs IH]; intros m L; cbn.
  - exists m. split; [reflexivity|exact L].
  - destruct (press_listening v m L) as (m1 & -> & L1). apply IH, L1.
Qed.

Lemma interrupts_frame burst w w' :
  interrupts burst w = Some w' -> vars w' = vars w /\ stdout w' = stdout w.
Proof.
  unfold interrupts. destruct (presses burst (hw w)); [|discriminate].
  intros H. injection H as <-. split; reflexivity.
Qed.

Lemma interrupts_single_armed v w :
  armed (hw w) -> Z.land v 0xf <> 0 ->
  interrupts [v] w =
    Some {| hw := served v; vars := vars w; stdout := stdout w |}.
Proof.
  intros A N. unfold interrupts. cbn [presses].
  rewrite (press_armed v (hw w) A N). reflexivity.
Qed.

(* ------------------------------------------------------------------ *)
(** ** Polling *)

Lemma poll_once_same w :
  edge_capture (hw w) = last_tested (vars w) -> poll_once w = w.
Proof.
  intros E. unfold poll_once.
  rewrite loop_body_same by (symmetry; exact E).
  rewrite app_nil_r. destruct w; reflexivity.
Qed.

Lemma poll_once_last_tested w :
  last_tested (vars (poll_once w)) = edge_capture (hw w).
Proof.
  rewrite poll_once_vars.
  destruct (loop_body_cases (edge_capture (hw w)) (edge_capture (hw w))
              (edge_capture (hw w)) (vars w))
    as [[E ->] | [[_ [-> _]] | [_ [_ [_ ->]]]]]; cbn; auto.
Qed.

Lemma poll_once_idem w : poll_once (poll_once w) = poll_once w.
Proof.
  apply poll_once_same.
  rewrite poll_once_last_tested, poll_once_hw. reflexivity.
Qed.

Lemma init_armed m : armed (hw (TestButtons_init m)).
Proof. repeat split. Qed.

Lemma init_is_u8 m : is_u8 (buttons_tested (vars (TestButtons_init m))).
Proof. cbn. unfold is_u8, to_u8. cbn. lia. Qed.

(** With the handler registered on [edge_capture], no schedule makes the
    loop fault. *)
Lemma loop_never_faults sched : forall w,
  listening (hw w) -> exists w', world_of (TestButtons_loop sched w) = Some w'.
Proof.
  induction sched as [|burst rest IH]; intros w L.
  - exists w. cbn. destruct (loop_test (vars w)); reflexivity.
  - cbn [TestButtons_loop].
    destruct (loop_test (vars w)); [|exists w; reflexivity].
    destruct (presses_listening burst (hw w) L) as (m1 & P & L1).
    unfold interrupts. rewrite P.
    apply IH. rewrite poll_once_hw. exact L1.
Qed.

Lemma TestButtons_never_faults sched m :
  exists w, world_of (TestButtons sched m) = Some w.
Proof.
  unfold TestButtons.
  destruct (loop_never_faults sched (TestButtons_init m)) as [w R].
  - split; reflexivity.
  - destruct (TestButtons_loop sched (TestButtons_init m)) as [w0 | w0 |];
      [eexists; reflexivity | eexists; reflexivity | discriminate R].
Qed.

(* ------------------------------------------------------------------ *)
(** ** Properties of the button test *)

(** C7.  Monotonicity of the tested mask: one pass of the loop body, whatever
    the three reads of [edge_capture] return, and any run of the loop, whatever
    the schedule of interrupts, only adds bits to [buttons_tested]; a bit that
    is set stays set.  The states covered are all those in which
    [buttons_tested] is an [alt_u8], which includes every state reachable
    from [TestButtons_init]. *)
Theorem tested_mask_monotone (w : world) :
  is_u8 (buttons_tested (vars w)) ->
  (forall r1 r2 r3,
      mask_le (buttons_tested (vars w))
              (buttons_tested (fst (loop_body r1 r2 r3 (vars w))))) /\
  mask_le (buttons_tested (vars w)) (buttons_tested (vars (poll_once w))) /\
  (forall sched w',
      world_of (TestButtons_loop sched w) = Some w' ->
      mask_le (buttons_tested (vars w)) (buttons_tested (vars w'))).
Proof.
  intros U. split; [|split].
  - intros r1 r2 r3. apply loop_body_grows, U.
  - rewrite poll_once_vars. apply loop_body_grows, U.
  - intros sched w' R. eapply loop_grows; eassumption.
Qed.

Lemma tested_mask_monotone_witness :
  let w := {| hw := served 0x2;
              vars := {| buttons_tested := 0x5; all_tested := 0xf;
                         last_tested := 0x4 |};
              stdout := [] |} in
  is_u8 (buttons_tested (vars w)) /\
  mask_le (buttons_tested (vars w)) (buttons_tested (vars (poll_once w))).
Proof.
  intros w.
  assert (U : is_u8 (buttons_tested (vars w))) by (cbn; unfold is_u8; lia).
  split; [exact U|].
  exact (proj1 (proj2 (tested_mask_monotone w U))).
Defined.

(** A capture served and polled, then served again: the second pass sees
    [last_tested == edge_capture] and does nothing. *)
Lemma served_twice w v rest :
  armed (hw w) -> Z.land v 0xf <> 0 ->
  TestButtons_loop ([v] :: [v] :: rest) w = TestButtons_loop ([v] :: rest) w.
Proof.
  intros A N.
  cbn [TestButtons_loop].
  destruct (loop_test (vars w)); [|reflexivity].
  rewrite (interrupts_single_armed v w A N).
  set (w1 := {| hw := served v; vars := vars w; stdout := stdout w |}).
  destruct (loop_test (vars (poll_once w1))) eqn:T.
  - assert (H : hw (poll_once w1) = served v) by apply poll_once_hw.
    rewrite interrupts_single_armed
      by (try rewrite H; auto using armed_served).
    replace {| hw := served v; vars := vars (poll_once w1);
               stdout := stdout (poll_once w1) |} with (poll_once w1)
      by (rewrite <- H; destruct (poll_once w1); reflexivity).
    rewrite poll_once_idem. reflexivity.
  - symmetry. apply loop_exit, T.
Qed.

(** C5.  A value that is not the single-bit pattern of one of the four lines
    (0x3, zero, ...) prints nothing and leaves [buttons_tested] as it is: in
    the loop body whenever the [switch] operand is such a value, and in a whole
    pass polling such an [edge_capture].  Conversely a pass that changes
    [buttons_tested] polled one of 0x1, 0x2, 0x4, 0x8. *)
Theorem non_single_line_ignored :
  (forall r1 r2 r3 l,
      ~ single_line r3 ->
      snd (loop_body r1 r2 r3 l) = [] /\
      buttons_tested (fst (loop_body r1 r2 r3 l)) = buttons_tested l) /\
  (forall w,
      ~ single_line (edge_capture (hw w)) ->
      stdout (poll_once w) = stdout w /\
      buttons_tested (vars (poll_once w)) = buttons_tested (vars w)) /\
  (forall w,
      buttons_tested (vars (poll_once w)) <> buttons_tested (vars w) ->
      single_line (edge_capture (hw w))).
Proof.
  assert (Body : forall r1 r2 r3 l,
             ~ single_line r3 ->
             snd (loop_body r1 r2 r3 l) = [] /\
             buttons_tested (fst (loop_body r1 r2 r3 l)) = buttons_tested l).
  { intros r1 r2 r3 l N.
    destruct (loop_body_cases r1 r2 r3 l)
      as [[_ ->] | [[_ [-> _]] | [_ [S _]]]]; cbn; auto.
    contradiction. }
  split; [exact Body|]. split.
  - intros w N. rewrite poll_once_stdout, poll_once_vars.
    destruct (Body (edge_capture (hw w)) (edge_capture (hw w))
                (edge_capture (hw w)) (vars w) N) as [-> ->].
    rewrite app_nil_r. split; reflexivity.
  - intros w D. rewrite poll_once_vars in D.
    destruct (single_lineb (edge_capture (hw w))) eqn:S.
    + apply single_lineb_spec, S.
    + exfalso. apply D.
      apply Body. intros H. apply single_lineb_spec in H. congruence.
Qed.

Lemma non_single_line_ignored_witness :
  let w := {| hw := served 0x3;
              vars := {| buttons_tested := 0x0; all_tested := 0xf;
                         last_tested := 0xffff |};
              stdout := [LoopAnnounce; IgnoreNote] |} in
  ~ single_line (edge_capture (hw w)) /\
  stdout (poll_once w) = stdout w /\
  buttons_tested (vars (poll_once w)) = buttons_tested (vars w).
Proof.
  intros w.
  assert (N : ~ single_line (edge_capture (hw w))).
  { cbn. unfold single_line. lia. }
  split; [exact N|].
  exact (proj1 (proj2 non_single_line_ignored) w N).
Defined.

(** C4.  Suppression of an unchanged value.  When the value read from
    [edge_capture] equals [last_tested] the pass changes nothing and prints
    nothing; hence a second pass over the same value is void, a capture served
    twice in a row counts once, and a fresh line pattern delivered twice in a
    row after arming prints exactly one message. *)
Theorem unchanged_value_suppressed :
  (forall r1 r2 r3 l,
      r1 = last_tested l -> loop_body r1 r2 r3 l = (l, [])) /\
  (forall w,
      edge_capture (hw w) = last_tested (vars w) -> poll_once w = w) /\
  (forall w, poll_once (poll_once w) = poll_once w) /\
  (forall w v rest,
      armed (hw w) -> Z.land v 0xf <> 0 ->
      TestButtons_loop ([v] :: [v] :: rest) w =
      TestButtons_loop ([v] :: rest) w) /\
  (forall m v,
      single_line v ->
      exists w,
        TestButtons_loop (deliver [v; v]) (TestButtons_init m) = Spinning w /\
        stdout w = stdout (TestButtons_init m) ++ [message_of_bit v]).
Proof.
  split; [|split; [|split; [|split]]].
  - intros r1 r2 r3 l E. apply loop_body_same. symmetry. exact E.
  - exact poll_once_same.
  - exact poll_once_idem.
  - exact served_twice.
  - intros m v [-> | [-> | [-> | ->]]]; eexists; split; reflexivity.
Qed.

Lemma unchanged_value_suppressed_witness :
  let w := {| hw := served 0x2;
              vars := {| buttons_tested := 0x2; all_tested := 0xf;
                         last_tested := 0x2 |};
              stdout := [LoopAnnounce; IgnoreNote; Button2Pressed] |} in
  edge_capture (hw w) = last_tested (vars w) /\ poll_once w = w.
Proof.
  intros w.
  assert (E : edge_capture (hw w) = last_tested (vars w)) by reflexivity.
  split; [exact E|].
  exact (proj1 (proj2 unchanged_value_suppressed) w E).
Defined.

Lemma lor_four_bit a b : four_bit a -> four_bit b -> four_bit (Z.lor a b).
Proof.
  unfold four_bit. intros Ha Hb.
  assert (H : 0 <= Z.lor a b < 2 ^ 4)
    by (apply lor_below_pow2; change (2 ^ 4) with 16; lia).
  change (2 ^ 4) with 16 in H. lia.
Qed.

Lemma press_four_bit v m :
  listening m -> four_bit v ->
  four_bit (edge_capture m) -> four_bit (edge_cap (button_pio m)) ->
  exists m', press v m = Some m' /\ listening m' /\
             four_bit (edge_capture m') /\ four_bit (edge_cap (button_pio m')).
Proof.
  destruct m as [ec [reg mask] irq]. unfold listening. cbn.
  intros [-> ->] Hv Hec Hreg.
  pose proof (lor_four_bit reg v Hreg Hv) as Hl.
  unfold press, alt_irq_dispatch. cbn.
  destruct (irq_asserted _); eexists; (split; [reflexivity|]); cbn;
    repeat split; auto; unfold four_bit in *; lia.
Qed.

Lemma presses_four_bit vs : forall m,
  listening m -> Forall four_bit vs ->
  four_bit (edge_capture m) -> four_bit (edge_cap (button_pio m)) ->
  exists m', presses vs m = Some m' /\ listening m' /\
             four_bit (edge_capture m') /\ four_bit (edge_cap (button_pio m')).
Proof.
  induction vs as [|v vs IH]; intros m L F Hec Hreg; cbn.
  - exists m. auto.
  - inversion F as [|? ? Hv F']; subst.
    destruct (press_four_bit v m L Hv Hec Hreg) as (m1 & -> & L1 & E1 & R1).
    apply IH; assumption.
Qed.

(** C8.  The state [TestButtons] is in when the loop is first reached:
    [edge_capture], [buttons_tested] and the hardware edge-capture register
    are zero, the interrupt mask is 0xf, the handler is registered on
    [edge_capture], and [last_tested] is 0xffff, a value outside the range
    0..0xf of four-line captures, which no burst of four-line events can put
    into [edge_capture].  The machine is then [Running]. *)
Theorem armed_state (m : machine) :
  let w := TestButtons_init m in
  edge_capture (hw w) = 0 /\
  buttons_tested (vars w) = 0 /\
  all_tested (vars w) = 0xf /\
  last_tested (vars w) = 0xffff /\
  (forall v, four_bit v -> v <> last_tested (vars w)) /\
  irq_mask (button_pio (hw w)) = 0xf /\
  edge_cap (button_pio (hw w)) = 0 /\
  button_irq (hw w) = Registered addr_edge_capture /\
  fsm_state w = Running /\
  (forall burst, Forall four_bit burst ->
     exists w', interrupts burst w = Some w' /\
                edge_capture (hw w') <> last_tested (vars w')).
Proof.
  cbn zeta. repeat (split; [reflexivity|]).
  split; [|split; [reflexivity|split; [reflexivity|
          split; [reflexivity|split; [reflexivity|]]]]].
  - intros v Hv. cbn. unfold four_bit in Hv. lia.
  - intros burst F.
    destruct (presses_four_bit burst (hw (TestButtons_init m)))
      as (m' & P & _ & E & _); auto.
    + split; reflexivity.
    + cbn. unfold four_bit. lia.
    + cbn. unfold four_bit. lia.
    + unfold interrupts. rewrite P. eexists. split; [reflexivity|].
      cbn. unfold four_bit in E. lia.
Qed.

Lemma armed_state_witness :
  Forall four_bit [0x1; 0x8] /\
  exists w', interrupts [0x1; 0x8] (TestButtons_init (served 0x4)) = Some w' /\
             edge_capture (hw w') <> last_tested (vars w').
Proof.
  assert (F : Forall four_bit [0x1; 0x8])
    by (repeat constructor; unfold four_bit; lia).
  split; [exact F|].
  exact (proj2 (proj2 (proj2 (proj2 (proj2 (proj2 (proj2 (proj2 (proj2
           (armed_state (served 0x4)))))))))) [0x1; 0x8] F).
Defined.

(** C9.  The interrupt handler, called with the [edge_capture] context,
    stores the edge-capture register into [edge_capture] and then resets the
    register to zero; the interrupt mask and the handler registration are
    left alone, and the locals of [TestButtons] ([buttons_tested],
    [last_tested], [all_tested]) and its output are the same after any burst
    of interrupts as before. *)
Theorem handler_frame :
  (forall m,
      exists m',
        handle_button_interrupts addr_edge_capture m = Some m' /\
        edge_capture m' = edge_cap (button_pio m) /\
        edge_cap (button_pio m') = 0 /\
        irq_mask (button_pio m') = irq_mask (button_pio m) /\
        button_irq m' = button_irq m) /\
  (forall burst w w',
      interrupts burst w = Some w' ->
      buttons_tested (vars w') = buttons_tested (vars w) /\
      last_tested (vars w') = last_tested (vars w) /\
      all_tested (vars w') = all_tested (vars w) /\
      stdout w' = stdout w).
Proof.
  split.
  - intros m. eexists. split; [apply handler_on_edge_capture|].
    cbn. repeat split.
  - intros burst w w' I.
    destruct (interrupts_frame burst w w' I) as [-> ->].
    repeat split.
Qed.

Lemma handler_frame_witness :
  let w := {| hw := served 0x1;
              vars := {| buttons_tested := 0x1; all_tested := 0xf;
                         last_tested := 0x1 |};
              stdout := [Button1Pressed] |} in
  let w' := {| hw := served 0x4; vars := vars w; stdout := stdout w |} in
  interrupts [0x4] w = Some w' /\
  buttons_tested (vars w') = buttons_tested (vars w) /\
  last_tested (vars w') = last_tested (vars w) /\
  all_tested (vars w') = all_tested (vars w) /\
  stdout w' = stdout w.
Proof.
  intros w w'.
  assert (I : interrupts [0x4] w = Some w') by reflexivity.
  split; [exact I|].
  exact (proj2 handler_frame [0x4] w w' I).
Defined.

(** C6.  The scenario 0x2, 0x2, 0x1, 0x8, 0x4 after arming: the run prints
    the messages of buttons 2, 1, 4, 3 in that order, nothing for the second
    0x2, and leaves the loop with [buttons_tested] equal to 0xf; [TestButtons]
    then returns after its closing message, with the button PIO disabled. *)
Theorem scenario (m : machine) :
  exists w,
    TestButtons_loop (deliver [0x2; 0x2; 0x1; 0x8; 0x4]) (TestButtons_init m)
      = Exited w /\
    stdout w = [LoopAnnounce; IgnoreNote; Button2Pressed; Button1Pressed;
                Button4Pressed; Button3Pressed] /\
    line_messages (stdout w) = [2; 1; 4; 3] /\
    buttons_tested (vars w) = 0xf /\
    fsm_state w = Complete /\
    TestButtons (deliver [0x2; 0x2; 0x1; 0x8; 0x4]) m
      = Exited (TestButtons_exit w).
Proof.
  eexists. split; [reflexivity|].
  repeat split.
Qed.

(* ------------------------------------------------------------------ *)
(** ** Completion *)

Lemma perm4_cases evs :
  Permutation [0x1; 0x2; 0x4; 0x8] evs ->
  exists a b c d,
    evs = [a; b; c; d] /\
    single_line a /\ single_line b /\ single_line c /\ single_line d /\
    a <> b /\ a <> c /\ a <> d /\ b <> c /\ b <> d /\ c <> d.
Proof.
  intros P.
  pose proof (Permutation_length P) as L.
  assert (I : forall x, In x evs -> single_line x).
  { intros x Hx. apply (Permutation_in _ (Permutation_sym P)) in Hx.
    unfold single_line. cbn in Hx. intuition auto. }
  assert (N : NoDup evs).
  { apply (Permutation_NoDup P).
    repeat constructor; cbn; intuition discriminate. }
  destruct evs as [|a [|b [|c [|d [|e evs]]]]]; try discriminate L.
  exists a, b, c, d.
  inversion N as [|? ? Na N1]; subst.
  inversion N1 as [|? ? Nb N2]; subst.
  inversion N2 as [|? ? Nc N3]; subst.
  cbn in Na, Nb, Nc.
  repeat split; try (apply I; cbn; tauto); intros E; subst; tauto.
Qed.

(** C1.  After arming the machine is [Running]; when the four single-bit
    events 0x1, 0x2, 0x4, 0x8 are then served and polled one by one, in any
    order, the loop is left ([Exited]) with [buttons_tested] equal to 0xf, and
    not before the fourth event.  From then on nothing changes
    [buttons_tested]: events that follow in the schedule are not polled any
    more, and even a further pass of the loop body would leave it at 0xf. *)
Theorem completion (m : machine) (evs : list Z) :
  Permutation [0x1; 0x2; 0x4; 0x8] evs ->
  fsm_state (TestButtons_init m) = Running /\
  exists w,
    TestButtons_loop (deliver evs) (TestButtons_init m) = Exited w /\
    buttons_tested (vars w) = 0xf /\
    fsm_state w = Complete /\
    (forall k, (k < 4)%nat ->
       exists w', TestButtons_loop (deliver (firstn k evs))
                    (TestButtons_init m) = Spinning w' /\
                  fsm_state w' = Running) /\
    (forall further,
       TestButtons_loop (deliver evs ++ further) (TestButtons_init m)
         = Exited w) /\
    (forall r1 r2 r3,
       buttons_tested (fst (loop_body r1 r2 r3 (vars w))) = 0xf).
Proof.
  intros P. split; [reflexivity|].
  destruct (perm4_cases evs P)
    as (a & b & c & d & -> & Sa & Sb & Sc & Sd & Nab & Nac & Nad & Nbc & Nbd & Ncd).
  assert (Core : exists w,
    TestButtons_loop (deliver [a; b; c; d]) (TestButtons_init m) = Exited w /\
    buttons_tested (vars w) = 0xf /\ all_tested (vars w) = 0xf /\
    (forall k, (k < 4)%nat ->
       exists w', TestButtons_loop (deliver (firstn k [a; b; c; d]))
                    (TestButtons_init m) = Spinning w' /\
                  fsm_state w' = Running)).
  { destruct Sa as [-> | [-> | [-> | ->]]];
    destruct Sb as [-> | [-> | [-> | ->]]]; try (exfalso; apply Nab; reflexivity);
    destruct Sc as [-> | [-> | [-> | ->]]];
      try (exfalso; apply Nac; reflexivity);
      try (exfalso; apply Nbc; reflexivity);
    destruct Sd as [-> | [-> | [-> | ->]]];
      try (exfalso; apply Nad; reflexivity);
      try (exfalso; apply Nbd; reflexivity);
      try (exfalso; apply Ncd; reflexivity).
    all: eexists; split; [reflexivity|]; split; [reflexivity|];
         split; [reflexivity|].
    all: intros k Hk; destruct k as [|[|[|[|k]]]]; try lia;
         eexists; split; reflexivity. }
  destruct Core as (w & R & B & A & Pre).
  exists w. split; [exact R|]. split; [exact B|].
  assert (T : loop_test (vars w) = false).
  { unfold loop_test. rewrite B, A. reflexivity. }
  split; [unfold fsm_state; rewrite T; reflexivity|].
  split; [exact Pre|]. split.
  - intros further. rewrite loop_app, R. reflexivity.
  - intros r1 r2 r3.
    destruct (loop_body_cases r1 r2 r3 (vars w))
      as [[_ ->] | [[_ [-> _]] | [_ [S [Z0 _]]]]]; cbn; auto.
    exfalso. rewrite B in Z0.
    destruct S as [-> | [-> | [-> | ->]]]; discriminate Z0.
Qed.

Lemma completion_witness :
  Permutation [0x1; 0x2; 0x4; 0x8] [0x4; 0x1; 0x8; 0x2] /\
  exists w,
    TestButtons_loop (deliver [0x4; 0x1; 0x8; 0x2])
      (TestButtons_init (served 0)) = Exited w /\
    buttons_tested (vars w) = 0xf.
Proof.
  assert (P : Permutation [0x1; 0x2; 0x4; 0x8] [0x4; 0x1; 0x8; 0x2]).
  { apply (perm_trans (l' := [0x1; 0x4; 0x2; 0x8])).
    - apply perm_skip, perm_swap.
    - apply (perm_trans (l' := [0x4; 0x1; 0x2; 0x8])).
      + apply perm_swap.
      + do 2 apply perm_skip. apply perm_swap. }
  split; [exact P|].
  destruct (proj2 (completion (served 0) _ P)) as (w & R & B & _).
  exists w. split; [exact R|exact B].
Defined.

(* ------------------------------------------------------------------ *)
(** ** One message per line and run *)

Lemma line_of_message_of_bit v :
  single_line v -> line_of (message_of_bit v) = Some (line_number v).
Proof. intros [-> | [-> | [-> | ->]]]; reflexivity. Qed.

Lemma reported_app k out1 out2 :
  reported k (out1 ++ out2) = (reported k out1 + reported k out2)%nat.
Proof.
  unfold reported, line_messages. rewrite flat_map_app. apply count_occ_app.
Qed.

Lemma reported_message_of_bit v u :
  single_line v -> single_line u ->
  reported (line_number u) [message_of_bit v] = if v =? u then 1%nat else 0%nat.
Proof.
  intros [-> | [-> | [-> | ->]]] [-> | [-> | [-> | ->]]]; reflexivity.
Qed.

Lemma land_lor_other b v u :
  single_line v -> single_line u -> v <> u ->
  Z.land (Z.lor b v) u = Z.land b u.
Proof.
  intros Sv Su N. rewrite Z.land_lor_distr_l.
  replace (Z.land v u) with 0; [apply Z.lor_0_r|].
  destruct Sv as [-> | [-> | [-> | ->]]], Su as [-> | [-> | [-> | ->]]];
    try reflexivity; contradiction.
Qed.

Lemma land_lor_same b v : single_line v -> Z.land (Z.lor b v) v <> 0.
Proof.
  intros S. rewrite Z.land_lor_distr_l.
  replace (Z.land v v) with v by (symmetry; apply Z.land_diag).
  intros H. apply Z.lor_eq_0_iff in H. destruct H as [_ H].
  destruct S as [-> | [-> | [-> | ->]]]; discriminate H.
Qed.

Lemma poll_once_reports w : reports_match w -> reports_match (poll_once w).
Proof.
  intros [U R]. unfold reports_match.
  rewrite poll_once_vars, poll_once_stdout.
  set (e := edge_capture (hw w)).
  destruct (loop_body_cases e e e (vars w))
    as [[_ ->] | [[_ [-> _]] | [_ [S [B ->]]]]]; cbn [fst snd].
  - rewrite app_nil_r. split; assumption.
  - rewrite app_nil_r. split; assumption.
  - cbn [set_buttons_tested set_last_tested buttons_tested].
    pose proof (single_line_u8 _ S) as K.
    rewrite lor_u8 by assumption.
    split; [apply lor_is_u8; assumption|].
    intros u Su. rewrite reported_app, (R u Su).
    rewrite (reported_message_of_bit e u S Su).
    destruct (Z.eqb_spec e u) as [<- | N].
    + rewrite B. cbn.
      pose proof (land_lor_same (buttons_tested (vars w)) e S) as H.
      apply Z.eqb_neq in H. rewrite H. reflexivity.
    + rewrite (land_lor_other _ e u S Su N), Nat.add_0_r. reflexivity.
Qed.

Lemma loop_reports sched : forall w w',
  reports_match w ->
  world_of (TestButtons_loop sched w) = Some w' -> reports_match w'.
Proof.
  induction sched as [|burst rest IH]; intros w w' M R.
  - cbn in R. destruct (loop_test (vars w)); cbn in R;
      injection R as <-; exact M.
  - cbn [TestButtons_loop] in R.
    destruct (loop_test (vars w)).
    + destruct (interrupts burst w) as [w1|] eqn:I; [|discriminate].
      destruct (interrupts_frame _ _ _ I) as [V O].
      apply (IH (poll_once w1) w'); [|exact R].
      apply poll_once_reports.
      unfold reports_match. rewrite V, O. exact M.
    + cbn in R. injection R as <-. exact M.
Qed.

Lemma init_reports m : reports_match (TestButtons_init m).
Proof.
  split; [apply init_is_u8|].
  intros v [-> | [-> | [-> | ->]]]; reflexivity.
Qed.

(** A fresh line pattern served and polled once or more. *)
Lemma repeated_press n : forall w v,
  armed (hw w) -> is_u8 (buttons_tested (vars w)) ->
  loop_test (vars w) = true ->
  single_line v ->
  Z.land (buttons_tested (vars w)) v = 0 ->
  last_tested (vars w) <> v ->
  exists w',
    world_of (TestButtons_loop (deliver (repeat v (S n))) w) = Some w' /\
    stdout w' = stdout w ++ [message_of_bit v] /\
    buttons_tested (vars w') = Z.lor (buttons_tested (vars w)) v.
Proof.
  induction n as [|n IH]; intros w v A U T Sv B L.
  - cbn [repeat deliver map TestButtons_loop]. rewrite T.
    rewrite (interrupts_single_armed v w A (single_line_enabled v Sv)).
    set (w1 := {| hw := served v; vars := vars w; stdout := stdout w |}).
    exists (poll_once w1).
    split; [destruct (loop_test (vars (poll_once w1))); reflexivity|].
    rewrite poll_once_stdout, poll_once_vars. cbn [w1 hw served edge_capture vars stdout].
    rewrite (loop_body_new_line v v v (vars w) L Sv B). cbn.
    rewrite lor_u8; auto using single_line_u8.
  - change (deliver (repeat v (S (S n))))
      with ([v] :: [v] :: deliver (repeat v n)).
    rewrite served_twice by auto using single_line_enabled.
    apply (IH w v); assumption.
Qed.

Lemma four_bit_enabled v : four_bit v -> v <> 0 -> Z.land v 0xf <> 0.
Proof.
  unfold four_bit. intros H N.
  change 0xf with (Z.ones 4). rewrite Z.land_ones by lia.
  change (2 ^ 4) with 16. rewrite Z.mod_small; lia.
Qed.

Lemma press_keeps_armed v m :
  armed m -> four_bit v -> exists m', press v m = Some m' /\ armed m'.
Proof.
  intros A F. destruct (Z.eq_dec v 0) as [-> | N].
  - rewrite (armed_eq m A). eexists. split; [reflexivity|]. repeat split.
  - rewrite (press_armed v m A (four_bit_enabled v F N)).
    eexists. split; [reflexivity|apply armed_served].
Qed.

Lemma presses_keep_armed vs : forall m,
  armed m -> Forall four_bit vs -> exists m', presses vs m = Some m' /\ armed m'.
Proof.
  induction vs as [|v vs IH]; intros m A F; cbn.
  - exists m. split; [reflexivity|exact A].
  - inversion F as [|? ? Fv F']; subst.
    destruct (press_keeps_armed v m A Fv) as (m1 & -> & A1).
    apply IH; assumption.
Qed.

Lemma poll_once_last_known w :
  is_u8 (buttons_tested (vars w)) -> last_known (vars w) ->
  last_known (vars (poll_once w)).
Proof.
  intros U K0. unfold last_known. rewrite poll_once_vars.
  set (e := edge_capture (hw w)).
  destruct (loop_body_cases e e e (vars w))
    as [[E ->] | [[_ [-> K]] | [_ [S [B ->]]]]];
    cbn [fst set_buttons_tested set_last_tested buttons_tested last_tested].
  - exact K0.
  - exact K.
  - intros _. rewrite lor_u8 by auto using single_line_u8.
    apply land_lor_same, S.
Qed.

Lemma init_steady m : steady (TestButtons_init m).
Proof.
  split; [apply init_armed|]. split; [apply init_reports|].
  intros [H | [H | [H | H]]]; discriminate H.
Qed.

Lemma loop_steady sched : forall w,
  Forall (Forall four_bit) sched -> steady w ->
  exists w', world_of (TestButtons_loop sched w) = Some w' /\ steady w'.
Proof.
  induction sched as [|burst rest IH]; intros w F St.
  - exists w. cbn. destruct (loop_test (vars w)); auto.
  - cbn [TestButtons_loop].
    destruct (loop_test (vars w)); [|exists w; auto].
    inversion F as [|? ? Fb Fr]; subst.
    destruct St as (A & M & K).
    destruct (presses_keep_armed burst (hw w) A Fb) as (m1 & P & A1).
    unfold interrupts. rewrite P.
    set (w1 := {| hw := m1; vars := vars w; stdout := stdout w |}).
    apply IH; [exact Fr|].
    split; [rewrite poll_once_hw; exact A1|].
    split; [apply poll_once_reports; exact M|].
    apply poll_once_last_known; [apply M|exact K].
Qed.

Lemma spinning_running sched : forall w w',
  TestButtons_loop sched w = Spinning w' -> loop_test (vars w') = true.
Proof.
  induction sched as [|burst rest IH]; intros w w' R.
  - cbn in R. destruct (loop_test (vars w)) eqn:T; [|discriminate].
    injection R as <-. exact T.
  - cbn [TestButtons_loop] in R.
    destruct (loop_test (vars w)); [|discriminate].
    destruct (interrupts burst w); [|discriminate].
    eapply IH, R.
Qed.

(** C3.  One message per line and run.  A pass whose [switch] operand is the
    pattern of a line already in [buttons_tested] prints nothing and leaves
    [buttons_tested] alone.  At every point of a run started by
    [TestButtons_init], each line has been reported exactly once if its bit is
    in [buttons_tested] and never otherwise.  And when, at a point of a run
    over four-line events where the loop is still polling, the pattern of a
    line not yet recorded is served and polled once or several times in a row,
    exactly one message for that line is printed and its bit is added to
    [buttons_tested]. *)
Theorem one_message_per_line :
  (forall r1 r2 v l,
      single_line v -> Z.land (buttons_tested l) v <> 0 ->
      snd (loop_body r1 r2 v l) = [] /\
      buttons_tested (fst (loop_body r1 r2 v l)) = buttons_tested l) /\
  (forall m sched w,
      world_of (TestButtons_loop sched (TestButtons_init m)) = Some w ->
      forall v, single_line v ->
        reported (line_number v) (stdout w) =
          (if Z.land (buttons_tested (vars w)) v =? 0 then 0%nat else 1%nat)) /\
  (forall m sched w v n,
      Forall (Forall four_bit) sched ->
      TestButtons_loop sched (TestButtons_init m) = Spinning w ->
      single_line v ->
      Z.land (buttons_tested (vars w)) v = 0 ->
      exists w',
        world_of (TestButtons_loop (deliver (repeat v (S n))) w) = Some w' /\
        stdout w' = stdout w ++ [message_of_bit v] /\
        buttons_tested (vars w') = Z.lor (buttons_tested (vars w)) v /\
        reported (line_number v) (stdout w') = 1%nat).
Proof.
  split; [|split].
  - intros r1 r2 v l S B.
    destruct (loop_body_cases r1 r2 v l)
      as [[_ ->] | [[_ [-> _]] | [_ [_ [Z0 _]]]]]; cbn; auto.
    contradiction.
  - intros m sched w R.
    apply (loop_reports sched (TestButtons_init m) w (init_reports m) R).
  - intros m sched w v n F R S B.
    destruct (loop_steady sched (TestButtons_init m) F (init_steady m))
      as (w0 & R0 & A & M & K).
    rewrite R in R0. cbn in R0. injection R0 as <-.
    assert (L : last_tested (vars w) <> v).
    { intros E. apply K; rewrite E; assumption. }
    destruct (repeated_press n w v A (proj1 M) (spinning_running _ _ _ R) S B L)
      as (w' & R' & O & B').
    exists w'. split; [exact R'|]. split; [exact O|]. split; [exact B'|].
    rewrite O, reported_app, (proj2 M v S), B.
    rewrite (reported_message_of_bit v v S S), (Z.eqb_refl v). reflexivity.
Qed.

Lemma one_message_per_line_witness :
  Forall (Forall four_bit) [[0x2]; []; [0x3]] /\
  single_line 0x4 /\
  exists w w',
    TestButtons_loop [[0x2]; []; [0x3]] (TestButtons_init (served 0))
      = Spinning w /\
    world_of (TestButtons_loop (deliver (repeat 0x4 3)) w) = Some w' /\
    stdout w' = stdout w ++ [message_of_bit 0x4] /\
    buttons_tested (vars w') = Z.lor (buttons_tested (vars w)) 0x4 /\
    reported (line_number 0x4) (stdout w') = 1%nat.
Proof.
  assert (F : Forall (Forall four_bit) [[0x2]; []; [0x3]])
    by (repeat constructor; unfold four_bit; lia).
  assert (S4 : single_line 0x4) by (unfold single_line; lia).
  split; [exact F|]. split; [exact S4|].
  eexists.
  assert (R : TestButtons_loop [[0x2]; []; [0x3]] (TestButtons_init (served 0))
              = Spinning _) by reflexivity.
  destruct (proj2 (proj2 one_message_per_line) _ _ _ 0x4 2%nat F R S4 eq_refl)
    as (w' & H).
  exists w'. split; [exact R|exact H].
Defined.

(* ------------------------------------------------------------------ *)
(** ** Teardown *)

Lemma press_disarmed v m :
  disarmed m ->
  exists m', press v m = Some m' /\ disarmed m' /\
             edge_capture m' = edge_capture m.
Proof.
  destruct m as [ec [reg mask] irq]. unfold disarmed. cbn.
  intros [-> ->].
  unfold press, alt_irq_dispatch, irq_asserted. cbn.
  rewrite Z.land_0_r. cbn.
  eexists. split; [reflexivity|]. repeat split.
Qed.

Lemma presses_disarmed vs : forall m,
  disarmed m ->
  exists m', presses vs m = Some m' /\ disarmed m' /\
             edge_capture m' = edge_capture m.
Proof.
  induction vs as [|v vs IH]; intros m D; cbn.
  - exists m. auto.
  - destruct (press_disarmed v m D) as (m1 & -> & D1 & E1).
    destruct (IH m1 D1) as (m2 & P & D2 & E2).
    exists m2. rewrite P. repeat split; try apply D2. congruence.
Qed.

(** C2, as the code has it.  [disable_button_pio] sets the interrupt mask to
    zero and empties the handler slot.  Edges latched afterwards raise no
    interrupt and a dispatch finds no handler, so [edge_capture] keeps its
    value and nothing faults.  The handler itself tests nothing before it
    writes: called with the [edge_capture] context it always stores the
    edge-capture register into [edge_capture].  The next run of [TestButtons]
    starts by resetting [edge_capture] to zero. *)
Theorem teardown (m : machine) :
  let d := disable_button_pio m in
  disarmed d /\
  edge_capture d = edge_capture m /\
  alt_irq_dispatch d = Some d /\
  (forall vs, exists d',
      presses vs d = Some d' /\ disarmed d' /\
      edge_capture d' = edge_capture m) /\
  (forall m0, exists m1,
      handle_button_interrupts addr_edge_capture m0 = Some m1 /\
      edge_capture m1 = edge_cap (button_pio m0)) /\
  (forall m0, edge_capture (hw (TestButtons_init m0)) = 0).
Proof.
  cbn zeta.
  assert (D : disarmed (disable_button_pio m)) by (split; reflexivity).
  split; [exact D|]. split; [reflexivity|]. split.
  - unfold alt_irq_dispatch, irq_asserted. cbn.
    rewrite Z.land_0_r. reflexivity.
  - split; [|split].
    + intros vs. apply (presses_disarmed vs _ D).
    + intros m0. eexists. split; [apply handler_on_edge_capture|reflexivity].
    + reflexivity.
Qed.

(** C2, as the spec has it, fails: after a complete run of [TestButtons],
    which ends with [disable_button_pio], [edge_capture] holds 0x8; a late
    call of the handler with line 3 latched overwrites it with 0x4. *)
Lemma late_handler_call_overwrites :
  exists w m',
    TestButtons (deliver [0x1; 0x2; 0x4; 0x8]) (served 0) = Exited w /\
    disarmed (hw w) /\
    edge_capture (hw w) = 0x8 /\
    handle_button_interrupts addr_edge_capture (with_pio (latch 0x4) (hw w))
      = Some m' /\
    edge_capture m' = 0x4 /\
    edge_capture m' <> edge_capture (hw w).
Proof.
  eexists. eexists.
  split; [reflexivity|]. split; [split; reflexivity|].
  split; [reflexivity|]. split; [reflexivity|].
  split; [reflexivity|]. cbn. discriminate.
Qed.

(* ------------------------------------------------------------------ *)
(** ** GetInputString *)

Lemma getc_range stream ch rest :
  getc stream = (ch, rest) ->
  -1 <= ch <= 255 /\
  (length rest <= length stream)%nat /\
  (ch <> EOF -> length stream = S (length rest)).
Proof.
  destruct stream as [|b s]; cbn; intros H; injection H as <- <-.
  - unfold EOF. cbn [length]. split; [lia|]. split; [lia|]. intros N. exfalso. apply N. reflexivity.
  - pose proof (Byte.to_N_bounded b). repeat split; lia.
Qed.

Lemma to_char_range ch :
  -1 <= ch <= 255 ->
  0 <= to_char ch < 256 /\
  (ch <> CR -> to_char ch <> CR) /\
  (ch <> NL -> to_char ch <> NL) /\
  (ch = NL -> to_char ch = NL).
Proof.
  intros R. unfold to_char, CR, NL.
  destruct (Z.eq_dec ch (-1)) as [-> | N].
  - cbn. repeat split; try lia; intros; discriminate.
  - rewrite Z.mod_small by lia. repeat split; try lia.
Qed.

Lemma store_at_middle (pre : list Z) x post c n :
  n = length pre ->
  store_at (pre ++ x :: post) n c = Some (pre ++ c :: post).
Proof.
  intros ->. induction pre as [|p pre IH]; cbn [app length store_at].
  - reflexivity.
  - rewrite IH. reflexivity.
Qed.

Lemma skipn_step (A : Type) (l : list A) n :
  (n < length l)%nat -> exists x, skipn n l = x :: skipn (S n) l.
Proof.
  revert n. induction l as [|a l IH]; intros n Hn; cbn in Hn; [lia|].
  destruct n as [|n].
  - exists a. reflexivity.
  - destruct (IH n) as [x Hx]; [lia|]. exists x. exact Hx.
Qed.

Lemma indices_snoc n : indices (S n) = indices n ++ [Z.of_nat n].
Proof. unfold indices. rewrite seq_S, map_app. reflexivity. Qed.

Lemma indices_bound n i : In i (indices n) -> 0 <= i < Z.of_nat n.
Proof.
  unfold indices. rewrite in_map_iff. intros (k & <- & Hk).
  apply in_seq in Hk. lia.
Qed.

Lemma gis_store entry0 (done : list (Z * Z)) c :
  (length done < length entry0)%nat ->
  store_char (map snd done ++ skipn (length done) entry0)
             (Z.of_nat (length done)) c
    = Some (map snd (done ++ [(Z.of_nat (length done), c)])
              ++ skipn (length (done ++ [(Z.of_nat (length done), c)])) entry0).
Proof.
  intros L. unfold store_char.
  destruct (Z.ltb_spec (Z.of_nat (length done)) 0) as [H | _]; [lia|].
  rewrite Nat2Z.id.
  destruct (skipn_step Z entry0 (length done) L) as [x ->].
  rewrite store_at_middle by (symmetry; apply length_map).
  rewrite map_app, length_app, <- app_assoc. cbn [map snd app length].
  rewrite Nat.add_1_r. reflexivity.
Qed.

Lemma gis_invariant_store entry0 size cur i ch done ch' :
  gis_invariant entry0 size cur i ch done ->
  ch <> NL -> i < size -> -1 <= ch' <= 255 -> ch' <> CR ->
  gis_invariant entry0 size
    (map snd (done ++ [(i, to_char ch')])
       ++ skipn (length (done ++ [(i, to_char ch')])) entry0)
    (i + 1) ch' (done ++ [(i, to_char ch')]).
Proof.
  intros [Hc Hl Hi Hch Hb Ho Hcl Hbf] N Lt R NCR.
  destruct (to_char_range ch' R) as (Rc & Kcr & Knl & Enl).
  constructor.
  - rewrite length_app. cbn [length]. lia.
  - lia.
  - rewrite map_app, length_app, Hi. cbn [map fst length].
    rewrite Nat.add_1_r, indices_snoc, Hc. reflexivity.
  - apply Forall_app. split; [exact Hch|].
    constructor; [|constructor]. split; cbn [snd]; auto.
  - reflexivity.
  - intros N'. apply Forall_app. split; [apply Ho, N|].
    constructor; [|constructor]. unfold not_newline. cbn [snd]. auto.
  - intros E. exists done, i. rewrite (Enl E). reflexivity.
  - rewrite removelast_last. apply Ho, N.
Qed.

Lemma gis_invariant_skip entry0 size cur i ch done :
  gis_invariant entry0 size cur i ch done ->
  ch <> NL ->
  gis_invariant entry0 size cur i CR done.
Proof.
  intros [Hc Hl Hi Hch Hb Ho Hcl Hbf] N.
  constructor; auto.
  intros E. discriminate E.
Qed.

Lemma gis_loop_returns fuel : forall entry0 size stream cur i ch done,
  size <= Z.of_nat (length entry0) ->
  gis_invariant entry0 size cur i ch done ->
  (length stream + Z.to_nat (size - i) <= fuel)%nat ->
  exists r,
    GetInputString_loop fuel cur size i ch stream done = Return r /\
    gis_post entry0 size r.
Proof.
  assert (Stop : forall entry0 size stream cur i ch done,
             gis_invariant entry0 size cur i ch done ->
             negb (ch =? NL) && (i <? size) = false ->
             gis_post entry0 size
               {| buffer := cur; unread := stream; stores := done |}).
  { intros entry0 size stream cur i ch done Inv C.
    destruct Inv as [Hc Hl Hi Hch Hb Ho Hcl Hbf].
    constructor; cbn [stores buffer]; auto; try lia.
    apply andb_false_iff in C. destruct C as [C | C].
    - left. apply Hcl. apply negb_false_iff, Z.eqb_eq in C. exact C.
    - right. apply Z.ltb_ge in C. lia. }
  induction fuel as [|fuel IH];
    intros entry0 size stream cur i ch done B Inv F;
    cbn [GetInputString_loop];
    destruct (negb (ch =? NL) && (i <? size)) eqn:C;
    try (eexists; split; [reflexivity|]; eapply Stop; eassumption).
  - exfalso. apply andb_true_iff in C. destruct C as [_ C].
    apply Z.ltb_lt in C. lia.
  - apply andb_true_iff in C. destruct C as [N Lt].
    apply negb_true_iff, Z.eqb_neq in N. apply Z.ltb_lt in Lt.
    destruct (getc stream) as [ch' rest] eqn:G.
    destruct (getc_range _ _ _ G) as (R & Lr & Le).
    destruct (Z.eqb_spec ch' CR) as [E | NCR]; cbn [negb].
    + subst ch'. apply (IH entry0).
      * exact B.
      * apply gis_invariant_skip with (ch := ch); assumption.
      * assert (length stream = S (length rest))
          by (apply Le; unfold CR, EOF; lia).
        lia.
    + pose proof (gis_count _ _ _ _ _ _ Inv) as Hc.
      pose proof (gis_buffer _ _ _ _ _ _ Inv) as Hb.
      assert (L : (length done < length entry0)%nat) by lia.
      rewrite Hb, Hc, (gis_store entry0 done (to_char ch') L), <- Hc.
      apply (IH entry0).
      * exact B.
      * apply gis_invariant_store with (cur := cur) (ch := ch); assumption.
      * lia.
Qed.

(** C10.  [GetInputString] on a buffer of at least [size] characters returns,
    whatever the stream holds.  Its stores go to the indices 0, 1, 2, ... in
    turn, all below [size], so at most [size] characters are stored and none
    outside the buffer; the rest of the buffer is as it was.  No stored
    character is ['\r'].  No store but the last is a ['\n'], and the call ends
    with a store of ['\n'] or with [size] characters stored. *)
Theorem GetInputString_bounds (entry : list Z) (size : Z) (stream : list byte) :
  size <= Z.of_nat (length entry) ->
  exists r,
    GetInputString entry size stream = Return r /\
    (forall i c, In (i, c) (stores r) -> 0 <= i < size /\ c <> CR) /\
    map fst (stores r) = indices (length (stores r)) /\
    Z.of_nat (length (stores r)) <= Z.max 0 size /\
    buffer r = map snd (stores r) ++ skipn (length (stores r)) entry /\
    length (buffer r) = length entry /\
    Forall not_newline (removelast (stores r)) /\
    (ends_line (stores r) \/ Z.of_nat (length (stores r)) = Z.max 0 size).
Proof.
  intros B. unfold GetInputString.
  destruct (gis_loop_returns (length stream + Z.to_nat size) entry size
              stream entry 0 0 [] B) as (r & R & P).
  - constructor; cbn; try lia; auto.
    + intros E. discriminate E.
  - rewrite Z.sub_0_r. lia.
  - exists r. split; [exact R|].
    destruct P as [Pi Pc Pch Pb Pbf Ps].
    split; [|repeat split; auto].
    + intros i c H.
      assert (Hi : In i (indices (length (stores r)))).
      { rewrite <- Pi. change i with (fst (i, c)). apply in_map, H. }
      apply indices_bound in Hi.
      rewrite Forall_forall in Pch. destruct (Pch _ H) as [_ Hc].
      cbn [snd] in Hc. split; [lia|exact Hc].
    + rewrite Pb, length_app, length_map, length_skipn. lia.
Qed.

Lemma GetInputString_bounds_witness :
  4 <= Z.of_nat (length [0; 0; 0; 0]) /\
  exists r,
    GetInputString [0; 0; 0; 0] 4 [x71; x0d; x0a; x61]%byte = Return r /\
    (forall i c, In (i, c) (stores r) -> 0 <= i < 4 /\ c <> CR).
Proof.
  assert (B : 4 <= Z.of_nat (length [0; 0; 0; 0])) by (cbn; lia).
  split; [exact B|].
  destruct (GetInputString_bounds [0; 0; 0; 0] 4 [x71; x0d; x0a; x61]%byte B)
    as (r & R & H & _).
  exists r. split; [exact R|exact H].
Defined.

(* ------------------------------------------------------------------ *)
(** ** When [TestButtons] returns *)

Lemma loop_body_within r1 r2 r3 l :
  within_lines l -> within_lines (fst (loop_body r1 r2 r3 l)).
Proof.
  intros [A F].
  destruct (loop_body_cases r1 r2 r3 l)
    as [[_ ->] | [[_ [-> _]] | [_ [S [_ ->]]]]];
    cbn [fst set_buttons_tested set_last_tested buttons_tested all_tested];
    try (split; assumption).
  split; [exact A|].
  cbn [fst set_buttons_tested set_last_tested buttons_tested all_tested].
  assert (Fv : four_bit r3) by (unfold four_bit; destruct S as [-> | [-> | [-> | ->]]]; lia).
  pose proof (lor_four_bit _ _ F Fv) as Fl.
  unfold to_u8. unfold four_bit in *. rewrite Z.mod_small; lia.
Qed.

Lemma loop_within sched : forall w w',
  within_lines (vars w) ->
  world_of (TestButtons_loop sched w) = Some w' -> within_lines (vars w').
Proof.
  induction sched as [|burst rest IH]; intros w w' W R.
  - cbn in R. destruct (loop_test (vars w)); cbn in R;
      injection R as <-; exact W.
  - cbn [TestButtons_loop] in R.
    destruct (loop_test (vars w)).
    + destruct (interrupts burst w) as [w1|] eqn:I; [|discriminate].
      destruct (interrupts_frame _ _ _ I) as [V _].
      apply (IH (poll_once w1) w'); [|exact R].
      rewrite poll_once_vars. apply loop_body_within. rewrite V. exact W.
    + cbn in R. injection R as <-. exact W.
Qed.

Lemma init_within m : within_lines (vars (TestButtons_init m)).
Proof. split; [reflexivity|]. cbn. unfold four_bit. lia. Qed.

Lemma exited_test sched : forall w w',
  TestButtons_loop sched w = Exited w' -> loop_test (vars w') = false.
Proof.
  induction sched as [|burst rest IH]; intros w w' R.
  - cbn in R. destruct (loop_test (vars w)) eqn:T; [discriminate|].
    injection R as <-. exact T.
  - cbn [TestButtons_loop] in R.
    destruct (loop_test (vars w)) eqn:T.
    + destruct (interrupts burst w); [|discriminate]. eapply IH, R.
    + injection R as <-. exact T.
Qed.

Lemma line_messages_range out k :
  In k (line_messages out) -> k = 1 \/ k = 2 \/ k = 3 \/ k = 4.
Proof.
  unfold line_messages. rewrite in_flat_map.
  intros (msg & _ & H). destruct msg; cbn in H; intuition auto.
Qed.

Lemma line_messages_snoc_all out :
  line_messages (out ++ [AllPressed]) = line_messages out.
Proof.
  unfold line_messages. rewrite flat_map_app. cbn. apply app_nil_r.
Qed.

(** X1.  [TestButtons] returns only with all four lines seen: whatever the
    interrupts did, a call that returns has [buttons_tested] at 0xf, has
    printed the message of each of the four buttons exactly once (the button
    numbers printed are a rearrangement of 1, 2, 3, 4), ends its output with
    the closing message and leaves the button PIO with its interrupts masked
    and no handler registered. *)
Theorem TestButtons_return (sched : list (list Z)) (m : machine) (w : world) :
  TestButtons sched m = Exited w ->
  buttons_tested (vars w) = 0xf /\
  Permutation [1; 2; 3; 4] (line_messages (stdout w)) /\
  (exists out, stdout w = [LoopAnnounce; IgnoreNote] ++ out ++ [AllPressed] /\
               length out = 4%nat) /\
  disarmed (hw w).
Proof.
  unfold TestButtons.
  destruct (TestButtons_loop sched (TestButtons_init m)) as [w0 | w0 |] eqn:R;
    try discriminate.
  intros E. injection E as <-.
  assert (R' : world_of (TestButtons_loop sched (TestButtons_init m)) = Some w0)
    by (rewrite R; reflexivity).
  pose proof (loop_within sched _ _ (init_within m) R') as [A F].
  pose proof (loop_reports sched _ _ (init_reports m) R') as [_ M].
  pose proof (exited_test sched _ _ R) as T.
  unfold loop_test in T. apply negb_false_iff, Z.eqb_eq in T.
  assert (B : buttons_tested (vars w0) = 0xf) by congruence.
  split; [exact B|].
  assert (P : Permutation [1; 2; 3; 4] (line_messages (stdout w0))).
  { apply (Permutation_count_occ Z.eq_dec). intros k.
    destruct (in_dec Z.eq_dec k [1; 2; 3; 4]) as [I | N].
    - assert (S : exists v, single_line v /\ line_number v = k).
      { cbn in I. destruct I as [<- | [<- | [<- | [<- | []]]]];
          [exists 1 | exists 2 | exists 4 | exists 8];
          (split; [unfold single_line; lia|reflexivity]). }
      destruct S as (v & Sv & <-).
      pose proof (M v Sv) as C. unfold reported in C. rewrite C, B.
      destruct Sv as [-> | [-> | [-> | ->]]]; reflexivity.
    - rewrite (proj1 (count_occ_not_In Z.eq_dec _ k) N).
      symmetry. apply count_occ_not_In. intros H.
      apply line_messages_range in H. apply N. cbn. intuition auto. }
  split; [cbn [TestButtons_exit stdout]; rewrite line_messages_snoc_all; exact P|].
  split; [|split; reflexivity].
  (* the shape of the output *)
  assert (Shape : forall s w1 w2,
             world_of (TestButtons_loop s w1) = Some w2 ->
             exists out, stdout w2 = stdout w1 ++ out /\
                         length (line_messages out) = length out).
  { clear. induction s as [|burst rest IH]; intros w1 w2 H.
    - exists []. cbn in H. destruct (loop_test (vars w1)); cbn in H;
        injection H as <-; rewrite app_nil_r; auto.
    - cbn [TestButtons_loop] in H.
      destruct (loop_test (vars w1)).
      + destruct (interrupts burst w1) as [w3|] eqn:I; [|discriminate].
        destruct (interrupts_frame _ _ _ I) as [_ O].
        destruct (IH _ _ H) as (out & E & L).
        rewrite poll_once_stdout, O in E.
        set (e := edge_capture (hw w3)) in *.
        exists (snd (loop_body e e e (vars w3)) ++ out).
        rewrite app_assoc. split; [exact E|].
        unfold line_messages in *. rewrite flat_map_app, !length_app, L.
        f_equal.
        destruct (loop_body_cases e e e (vars w3))
          as [[_ ->] | [[_ [-> _]] | [_ [S [_ ->]]]]]; cbn [snd flat_map];
          try reflexivity.
        rewrite (line_of_message_of_bit e S). reflexivity.
      + exists []. cbn in H. injection H as <-. rewrite app_nil_r. auto. }
  destruct (Shape _ _ _ R') as (out & E & L).
  exists out. cbn [TestButtons_exit stdout]. rewrite E.
  split; [cbn; rewrite <- ?app_assoc; reflexivity|].
  rewrite <- L.
  assert (LM : line_messages (stdout w0) = line_messages out).
  { rewrite E. unfold line_messages. rewrite flat_map_app. reflexivity. }
  rewrite <- LM, <- (Permutation_length P). reflexivity.
Qed.

Lemma TestButtons_return_witness :
  exists w,
    TestButtons [[0x8]; [0x3]; [0x4; 0x1]; []; [0x2]; [0x4]] (served 0x5)
      = Exited w /\
    buttons_tested (vars w) = 0xf /\
    Permutation [1; 2; 3; 4] (line_messages (stdout w)).
Proof.
  eexists.
  assert (R : TestButtons [[0x8]; [0x3]; [0x4; 0x1]; []; [0x2]; [0x4]]
                (served 0x5) = Exited _) by reflexivity.
  split; [exact R|].
  destruct (TestButtons_return _ _ _ R) as (B & P & _).
  split; [exact B|exact P].
Defined.

(* ------------------------------------------------------------------ *)
(** ** Which schedules make [TestButtons] return *)

Lemma land_lor_keeps b r v : Z.land b v <> 0 -> Z.land (Z.lor b r) v <> 0.
Proof.
  intros H E. rewrite Z.land_lor_distr_l in E.
  apply Z.lor_eq_0_iff in E. tauto.
Qed.

Lemma loop_body_keeps_bit r1 r2 r3 l v :
  is_u8 (buttons_tested l) -> Z.land (buttons_tested l) v <> 0 ->
  Z.land (buttons_tested (fst (loop_body r1 r2 r3 l))) v <> 0.
Proof.
  intros U H.
  destruct (loop_body_cases r1 r2 r3 l)
    as [[_ ->] | [[_ [-> _]] | [_ [S [_ ->]]]]];
    cbn [fst set_buttons_tested set_last_tested buttons_tested]; auto.
  rewrite lor_u8 by auto using single_line_u8.
  apply land_lor_keeps, H.
Qed.

Lemma loop_keeps_bit v sched : forall w w',
  is_u8 (buttons_tested (vars w)) -> credited v w ->
  world_of (TestButtons_loop sched w) = Some w' -> credited v w'.
Proof.
  induction sched as [|burst rest IH]; intros w w' U C R.
  - cbn in R. destruct (loop_test (vars w)); cbn in R;
      injection R as <-; exact C.
  - cbn [TestButtons_loop] in R.
    destruct (loop_test (vars w)).
    + destruct (interrupts burst w) as [w1|] eqn:I; [|discriminate].
      destruct (interrupts_frame _ _ _ I) as [V _].
      apply (IH (poll_once w1) w'); [| |exact R].
      * rewrite poll_once_vars. apply loop_body_grows. rewrite V. exact U.
      * unfold credited. rewrite poll_once_vars.
        apply loop_body_keeps_bit; rewrite V; assumption.
    + cbn in R. injection R as <-. exact C.
Qed.

Lemma poll_once_sound w : sound w -> sound (poll_once w).
Proof.
  intros [(A & M & K) W]. split; [split; [|split]|].
  - rewrite poll_once_hw. exact A.
  - apply poll_once_reports, M.
  - apply poll_once_last_known; [apply M|exact K].
  - rewrite poll_once_vars. apply loop_body_within, W.
Qed.

Lemma init_sound m : sound (TestButtons_init m).
Proof. split; [apply init_steady|apply init_within]. Qed.

Lemma poll_served_credits v w :
  sound w -> single_line v -> hw w = served v -> credited v (poll_once w).
Proof.
  intros [(A & M & K) W] S H. unfold credited. rewrite poll_once_vars, H.
  cbn [served edge_capture].
  destruct (loop_body_cases v v v (vars w))
    as [[E ->] | [[_ [-> B]] | [_ [_ [_ ->]]]]];
    cbn [fst set_buttons_tested set_last_tested buttons_tested].
  - unfold last_known in K. rewrite E in K. apply K, S.
  - apply B, S.
  - rewrite lor_u8 by (auto using single_line_u8; apply M).
    apply land_lor_same, S.
Qed.

Lemma interrupts_sound burst w :
  sound w -> Forall four_bit burst ->
  exists w', interrupts burst w = Some w' /\ sound w'.
Proof.
  intros [(A & M & K) W] F.
  destruct (presses_keep_armed burst (hw w) A F) as (m1 & P & A1).
  unfold interrupts. rewrite P. eexists. split; [reflexivity|].
  split; [split; [|split]|]; assumption.
Qed.

Lemma covering evs : forall w v,
  sound w -> Forall four_bit evs -> In v evs -> single_line v ->
  exists w', world_of (TestButtons_loop (deliver evs) w) = Some w' /\
             credited v w'.
Proof.
  induction evs as [|e evs IH]; intros w v So F I S; [contradiction|].
  inversion F as [|? ? Fe F']; subst.
  cbn [deliver map TestButtons_loop].
  destruct (loop_test (vars w)) eqn:T.
  - destruct I as [-> | I].
    + rewrite (interrupts_single_armed v w) by
        (try apply single_line_enabled; auto; apply So).
      set (w1 := {| hw := served v; vars := vars w; stdout := stdout w |}).
      assert (S1 : sound w1).
      { destruct So as [(A & M & K) W].
        split; [split; [apply armed_served|split; [exact M|exact K]]|exact W]. }
      pose proof (poll_served_credits v w1 S1 S eq_refl) as C.
      pose proof (poll_once_sound w1 S1) as S2.
      destruct (loop_steady (deliver evs) (poll_once w1)) as (w' & R & _).
      * clear - F'. induction F'; constructor; auto.
      * apply S2.
      * exists w'. split; [exact R|].
        apply (loop_keeps_bit v (deliver evs) (poll_once w1) w'); auto.
        apply S2.
    + destruct (interrupts_sound [e] w So) as (w1 & -> & S1);
        [constructor; auto|].
      apply (IH (poll_once w1) v); auto using poll_once_sound.
  - exists w. split; [reflexivity|].
    unfold loop_test in T. apply negb_false_iff, Z.eqb_eq in T.
    destruct So as [_ [Al _]]. unfold credited. rewrite T, Al.
    destruct S as [-> | [-> | [-> | ->]]]; discriminate.
Qed.

Lemma all_credited b :
  four_bit b ->
  Z.land b 1 <> 0 -> Z.land b 2 <> 0 -> Z.land b 4 <> 0 -> Z.land b 8 <> 0 ->
  b = 0xf.
Proof.
  unfold four_bit. intros F H1 H2 H4 H8.
  assert (C : b = 0 \/ b = 1 \/ b = 2 \/ b = 3 \/ b = 4 \/ b = 5 \/ b = 6 \/
              b = 7 \/ b = 8 \/ b = 9 \/ b = 10 \/ b = 11 \/ b = 12 \/
              b = 13 \/ b = 14 \/ b = 15) by lia.
  repeat (destruct C as [-> | C]; [cbn in *; congruence|]).
  exact C.
Qed.

(** X2.  [TestButtons] returns once every line has been captured: for any
    sequence of four-line captures, each served and polled on its own, that
    holds each of 0x1, 0x2, 0x4, 0x8 somewhere - in any order, with any
    repetitions and any other values (zero, several lines at once) in
    between - the loop is left and [TestButtons] returns. *)
Theorem TestButtons_completes (evs : list Z) (m : machine) :
  Forall four_bit evs ->
  (forall v, single_line v -> In v evs) ->
  exists w, TestButtons (deliver evs) m = Exited w.
Proof.
  intros F All.
  assert (Sv : forall v, v = 1 \/ v = 2 \/ v = 4 \/ v = 8 -> single_line v)
    by (intros v H; exact H).
  assert (Fs : Forall (Forall four_bit) (deliver evs))
    by (clear - F; induction F; constructor; auto).
  destruct (loop_steady _ _ Fs (init_steady m)) as (w & R & _).
  assert (W : within_lines (vars w))
    by (apply (loop_within _ _ _ (init_within m) R)).
  assert (C : forall v, single_line v -> credited v w).
  { intros v S.
    destruct (covering evs _ v (init_sound m) F (All v S) S) as (w' & R' & C).
    rewrite R in R'. injection R' as <-. exact C. }
  assert (B : buttons_tested (vars w) = 0xf).
  { apply all_credited; [apply W| | | |]; apply C; unfold single_line; lia. }
  unfold TestButtons.
  destruct (TestButtons_loop (deliver evs) (TestButtons_init m))
    as [w0 | w0 |] eqn:E.
  - eexists. reflexivity.
  - exfalso. cbn in R. injection R as ->.
    pose proof (spinning_running _ _ _ E) as T.
    unfold loop_test in T. rewrite B, (proj1 W) in T. discriminate T.
  - discriminate R.
Qed.

Lemma TestButtons_completes_witness :
  Forall four_bit [0x3; 0x1; 0x1; 0x0; 0x8; 0xc; 0x2; 0x8; 0x4; 0x1] /\
  exists w,
    TestButtons (deliver [0x3; 0x1; 0x1; 0x0; 0x8; 0xc; 0x2; 0x8; 0x4; 0x1])
      (served 0) = Exited w.
Proof.
  assert (F : Forall four_bit [0x3; 0x1; 0x1; 0x0; 0x8; 0xc; 0x2; 0x8; 0x4; 0x1])
    by (repeat constructor; unfold four_bit; lia).
  split; [exact F|].
  apply (TestButtons_completes _ (served 0) F).
  intros v [-> | [-> | [-> | ->]]]; cbn; tauto.
Defined.

Lemma presses_capture vs : forall m,
  armed m -> Forall four_bit vs ->
  exists m', presses vs m = Some m' /\ armed m' /\
             (edge_capture m' = edge_capture m \/ In (edge_capture m') vs).
Proof.
  induction vs as [|v vs IH]; intros m A F; cbn [presses].
  - exists m. auto.
  - inversion F as [|? ? Fv F']; subst.
    destruct (Z.eq_dec v 0) as [-> | N].
    + assert (P : press 0 m = Some m).
      { rewrite (armed_eq m A). reflexivity. }
      rewrite P. destruct (IH m A F') as (m' & -> & A' & H).
      exists m'. split; [reflexivity|]. split; [exact A'|].
      destruct H as [H | H]; [left; exact H|right; right; exact H].
    + rewrite (press_armed v m A (four_bit_enabled v Fv N)).
      destruct (IH (served v) (armed_served v) F') as (m' & -> & A' & H).
      exists m'. split; [reflexivity|]. split; [exact A'|].
      right. cbn [served edge_capture] in H. destruct H as [-> | H].
      * left. reflexivity.
      * right. exact H.
Qed.

(** X3.  [TestButtons] has no other way out: in a run over four-line captures
    in which the pattern of some line never occurs, that line is never
    recorded, however the other captures fall, and the loop is still polling
    when the schedule is used up. *)
Theorem TestButtons_waits (sched : list (list Z)) (m : machine) (v : Z) :
  Forall (Forall four_bit) sched ->
  single_line v ->
  ~ In v (concat sched) ->
  exists w, TestButtons sched m = Spinning w /\ ~ credited v w.
Proof.
  intros F S N.
  assert (Run : forall s w,
             Forall (Forall four_bit) s -> ~ In v (concat s) ->
             armed (hw w) -> is_u8 (buttons_tested (vars w)) ->
             all_tested (vars w) = 0xf ->
             Z.land (buttons_tested (vars w)) v = 0 ->
             edge_capture (hw w) <> v ->
             exists w', TestButtons_loop s w = Spinning w' /\ ~ credited v w').
  { assert (T : forall w, all_tested (vars w) = 0xf ->
                          Z.land (buttons_tested (vars w)) v = 0 ->
                          loop_test (vars w) = true).
    { intros w A B. unfold loop_test. apply negb_true_iff, Z.eqb_neq.
      intros E. rewrite E, A in B.
      destruct S as [-> | [-> | [-> | ->]]]; discriminate B. }
    induction s as [|burst rest IH]; intros w Fs Ns A U Al B E.
    - exists w. cbn. rewrite (T w Al B).
      split; [reflexivity|]. intros C. apply C, B.
    - cbn [TestButtons_loop]. rewrite (T w Al B).
      inversion Fs as [|? ? Fb Fr]; subst.
      cbn [concat] in Ns.
      destruct (presses_capture burst (hw w) A Fb) as (m1 & P & A1 & Ec).
      unfold interrupts. rewrite P.
      set (w1 := {| hw := m1; vars := vars w; stdout := stdout w |}).
      assert (E1 : edge_capture m1 <> v).
      { destruct Ec as [-> | Ec]; [exact E|].
        intros <-. apply Ns, in_or_app. left. exact Ec. }
      apply IH.
      + exact Fr.
      + intros H. apply Ns, in_or_app. right. exact H.
      + rewrite poll_once_hw. exact A1.
      + rewrite poll_once_vars. apply loop_body_grows, U.
      + rewrite poll_once_vars, loop_body_all_tested. exact Al.
      + rewrite poll_once_vars. cbn [w1 hw vars].
        destruct (loop_body_cases (edge_capture m1) (edge_capture m1)
                    (edge_capture m1) (vars w))
          as [[_ ->] | [[_ [-> _]] | [_ [S1 [_ ->]]]]];
          cbn [fst set_buttons_tested set_last_tested buttons_tested]; auto.
        rewrite lor_u8 by auto using single_line_u8.
        rewrite (land_lor_other _ _ _ S1 S E1). exact B.
      + rewrite poll_once_hw. exact E1. }
  unfold TestButtons.
  destruct (Run sched (TestButtons_init m) F N) as (w & R & C).
  - apply init_armed.
  - apply init_is_u8.
  - reflexivity.
  - reflexivity.
  - cbn. destruct S as [-> | [-> | [-> | ->]]]; discriminate.
  - exists w. rewrite R. split; [reflexivity|exact C].
Qed.

Lemma TestButtons_waits_witness :
  Forall (Forall four_bit) [[0x1; 0x2]; [0x8]; []; [0x6]; [0x2; 0x1]] /\
  single_line 0x4 /\
  exists w,
    TestButtons [[0x1; 0x2]; [0x8]; []; [0x6]; [0x2; 0x1]] (served 0)
      = Spinning w /\
    ~ credited 0x4 w.
Proof.
  assert (F : Forall (Forall four_bit) [[0x1; 0x2]; [0x8]; []; [0x6]; [0x2; 0x1]])
    by (repeat constructor; unfold four_bit; lia).
  assert (S : single_line 0x4) by (unfold single_line; lia).
  split; [exact F|]. split; [exact S|].
  apply (TestButtons_waits _ (served 0) 0x4 F S).
  cbn. intros H. repeat (destruct H as [H | H]; [discriminate H|]). exact H.
Defined.

Lemma presses_app vs1 vs2 m :
  presses (vs1 ++ vs2) m =
    match presses vs1 m with
    | Some m' => presses vs2 m'
    | None => None
    end.
Proof.
  revert m. induction vs1 as [|v vs1 IH]; intros m; cbn [app presses].
  - reflexivity.
  - destruct (press v m); [apply IH|reflexivity].
Qed.

(** X4.  Captures are not queued: when several four-line captures are served
    between two passes of the loop, the pass sees the last one only, and the
    earlier ones leave no trace - the run goes on as if they had never
    happened. *)
Theorem last_capture_wins (w : world) (vs : list Z) (v : Z) :
  armed (hw w) -> Forall four_bit vs -> four_bit v -> v <> 0 ->
  interrupts (vs ++ [v]) w = interrupts [v] w /\
  forall rest,
    TestButtons_loop ((vs ++ [v]) :: rest) w = TestButtons_loop ([v] :: rest) w.
Proof.
  intros A F Fv N.
  assert (I : interrupts (vs ++ [v]) w = interrupts [v] w).
  { unfold interrupts. rewrite presses_app.
    destruct (presses_keep_armed vs (hw w) A F) as (m1 & -> & A1).
    cbn [presses].
    rewrite (press_armed v m1 A1 (four_bit_enabled v Fv N)).
    rewrite (press_armed v (hw w) A (four_bit_enabled v Fv N)).
    reflexivity. }
  split; [exact I|].
  intros rest. cbn [TestButtons_loop]. rewrite I. reflexivity.
Qed.

Lemma last_capture_wins_witness :
  let w := TestButtons_init (served 0) in
  armed (hw w) /\
  TestButtons_loop [[0x1; 0x2]; [0x4]; [0x8]] w =
  TestButtons_loop [[0x2]; [0x4]; [0x8]] w.
Proof.
  intros w.
  assert (A : armed (hw w)) by apply init_armed.
  split; [exact A|].
  apply (proj2 (last_capture_wins w [0x1] 0x2 A
                  ltac:(repeat constructor; unfold four_bit; lia)
                  ltac:(unfold four_bit; lia) ltac:(lia))).
Defined.

(** X5.  A second call of the handler with no new edge wipes the capture.
    The handler resets the edge-capture register, so when it runs again
    before the loop has polled - the spurious interrupt its final read of the
    PIO is there to prevent - it stores zero over the captured value: the
    next pass of the loop then prints nothing and records no line. *)
Theorem spurious_interrupt_wipes (w : world) (v : Z) :
  armed (hw w) -> single_line v ->
  exists m1 m2,
    press v (hw w) = Some m1 /\
    edge_capture m1 = v /\
    handle_button_interrupts addr_edge_capture m1 = Some m2 /\
    edge_capture m2 = 0 /\
    let w2 := poll_once {| hw := m2; vars := vars w; stdout := stdout w |} in
    stdout w2 = stdout w /\
    buttons_tested (vars w2) = buttons_tested (vars w).
Proof.
  intros A S.
  exists (served v), (served 0).
  split; [apply press_armed; [exact A|apply single_line_enabled, S]|].
  split; [reflexivity|]. split; [reflexivity|]. split; [reflexivity|].
  cbn zeta. rewrite poll_once_stdout, poll_once_vars.
  cbn [hw served edge_capture vars stdout].
  destruct (loop_body_cases 0 0 0 (vars w))
    as [[_ ->] | [[_ [-> _]] | [_ [S0 _]]]]; cbn [fst snd].
  - rewrite app_nil_r. split; reflexivity.
  - rewrite app_nil_r. split; reflexivity.
  - exfalso. unfold single_line in S0. lia.
Qed.

Lemma spurious_interrupt_wipes_witness :
  let w := TestButtons_init (served 0) in
  armed (hw w) /\ single_line 0x2 /\
  exists m1 m2,
    press 0x2 (hw w) = Some m1 /\
    handle_button_interrupts addr_edge_capture m1 = Some m2 /\
    edge_capture m2 = 0.
Proof.
  intros w.
  assert (A : armed (hw w)) by apply init_armed.
  assert (S : single_line 0x2) by (unfold single_line; lia).
  split; [exact A|]. split; [exact S|].
  destruct (spurious_interrupt_wipes w 0x2 A S)
    as (m1 & m2 & P & _ & H & E & _).
  exists m1, m2. split; [exact P|]. split; [exact H|exact E].
Defined.

(** X6.  A capture that changes in the middle of a pass can hide a line.  When
    the value assigned to [last_tested] (second read) is the pattern of a line
    not yet recorded and the [switch] (third read) sees another value, the
    line is not recorded by this pass, and every later pass that finds this
    pattern in [edge_capture] does nothing: the line stays unrecorded for as
    long as [edge_capture] keeps the pattern. *)
Theorem torn_read_hides_line (l : locals) (r1 r2 r3 : Z) :
  is_u8 (buttons_tested l) ->
  last_tested l <> r1 ->
  single_line r2 -> r3 <> r2 ->
  Z.land (buttons_tested l) r2 = 0 ->
  let l' := fst (loop_body r1 r2 r3 l) in
  Z.land (buttons_tested l') r2 = 0 /\
  forall a b, loop_body r2 a b l' = (l', []).
Proof.
  intros U N S D B l'. subst l'.
  destruct (loop_body_cases r1 r2 r3 l)
    as [[E _] | [[_ [-> _]] | [_ [S3 [_ ->]]]]];
    cbn [fst set_buttons_tested set_last_tested buttons_tested].
  - contradiction.
  - split; [exact B|]. intros a b. apply loop_body_same. reflexivity.
  - rewrite lor_u8 by auto using single_line_u8.
    split; [rewrite (land_lor_other _ _ _ S3 S D); exact B|].
    intros a b. apply loop_body_same. reflexivity.
Qed.

Lemma torn_read_hides_line_witness :
  let l := {| buttons_tested := 0x0; all_tested := 0xf;
              last_tested := 0xffff |} in
  let l' := fst (loop_body 0x0 0x1 0x2 l) in
  is_u8 (buttons_tested l) /\
  Z.land (buttons_tested l') 0x1 = 0 /\
  forall a b, loop_body 0x1 a b l' = (l', []).
Proof.
  intros l l'.
  assert (U : is_u8 (buttons_tested l)) by (cbn; unfold is_u8; lia).
  split; [exact U|].
  apply (torn_read_hides_line l 0x0 0x1 0x2 U).
  - cbn. lia.
  - unfold single_line. lia.
  - lia.
  - reflexivity.
Defined.

(* ------------------------------------------------------------------ *)
(** ** What [GetInputString] takes from the stream *)

Lemma byte_val_range b : 0 <= byte_val b <= 255.
Proof. unfold byte_val. pose proof (Byte.to_N_bounded b). lia. Qed.

Lemma byte_val_inj b1 b2 : byte_val b1 = byte_val b2 -> b1 = b2.
Proof.
  unfold byte_val. intros H. apply N2Z.inj in H.
  pose proof (Byte.of_to_N b1) as H1. pose proof (Byte.of_to_N b2) as H2.
  rewrite H in H1. congruence.
Qed.

Lemma to_char_byte_val b : to_char (byte_val b) = byte_val b.
Proof. unfold to_char. apply Z.mod_small. pose proof (byte_val_range b). lia. Qed.

Lemma chars_of_app bs1 bs2 : chars_of (bs1 ++ bs2) = chars_of bs1 ++ chars_of bs2.
Proof. unfold chars_of. rewrite map_app. apply filter_app. Qed.

Lemma chars_of_cons_cr b bs : byte_val b = CR -> chars_of (b :: bs) = chars_of bs.
Proof. intros E. unfold chars_of. cbn [map filter]. rewrite E. reflexivity. Qed.

Lemma chars_of_cons_keep b bs :
  byte_val b <> CR -> chars_of (b :: bs) = byte_val b :: chars_of bs.
Proof.
  intros N. unfold chars_of. cbn [map filter].
  apply Z.eqb_neq in N. rewrite N. reflexivity.
Qed.

Lemma gis_loop_consumes fuel : forall cur size i ch stream done r,
  GetInputString_loop fuel cur size i ch stream done = Return r ->
  exists consumed pad,
    stream = consumed ++ unread r /\
    map snd (stores r) = map snd done ++ chars_of consumed ++ repeat 255 pad /\
    (pad <> 0%nat -> unread r = []).
Proof.
  assert (Stop : forall cur stream done r,
             Return {| buffer := cur; unread := stream; stores := done |}
               = Return r ->
             exists consumed pad,
               stream = consumed ++ unread r /\
               map snd (stores r)
                 = map snd done ++ chars_of consumed ++ repeat 255 pad /\
               (pad <> 0%nat -> unread r = [])).
  { intros cur stream done r H. injection H as <-.
    exists [], 0%nat. cbn. rewrite app_nil_r. repeat split. intros N.
    contradiction. }
  induction fuel as [|fuel IH]; intros cur size i ch stream done r H;
    cbn [GetInputString_loop] in H;
    destruct (negb (ch =? NL) && (i <? size)); try (eapply Stop; eassumption).
  - discriminate H.
  - destruct stream as [|b s]; cbn [getc] in H.
    + change (negb (EOF =? CR)) with true in H. cbv iota in H.
      destruct (store_char cur i (to_char EOF)) as [cur'|]; [|discriminate H].
      destruct (IH _ _ _ _ _ _ _ H) as (consumed & pad & E & St & _).
      symmetry in E. apply app_eq_nil in E. destruct E as [-> Eu].
      exists [], (S pad). rewrite Eu. split; [reflexivity|].
      split; [|reflexivity].
      rewrite St, map_app, <- app_assoc. reflexivity.
    + fold (byte_val b) in H.
      destruct (Z.eqb_spec (byte_val b) CR) as [E | N]; cbn [negb] in H.
      * destruct (IH _ _ _ _ _ _ _ H) as (consumed & pad & Es & St & P).
        exists (b :: consumed), pad. rewrite (chars_of_cons_cr b _ E).
        split; [cbn; congruence|]. split; assumption.
      * destruct (store_char cur i (to_char (byte_val b))) as [cur'|];
          [|discriminate H].
        destruct (IH _ _ _ _ _ _ _ H) as (consumed & pad & Es & St & P).
        exists (b :: consumed), pad. rewrite (chars_of_cons_keep b _ N).
        split; [cbn; congruence|]. split; [|exact P].
        rewrite St, map_app, <- app_assoc, to_char_byte_val. reflexivity.
Qed.

(** X7.  [GetInputString] neither loses nor reorders input: the call takes a
    prefix of the stream and leaves exactly the rest unread, and the
    characters it stores are, in order, the bytes of that prefix without the
    ['\r'] ones - followed, only if the stream ran out, by one 0xff (the
    [EOF] stored as a [char]) for each read past the end. *)
Theorem GetInputString_consumes (entry : list Z) (size : Z) (stream : list byte) :
  size <= Z.of_nat (length entry) ->
  exists r consumed pad,
    GetInputString entry size stream = Return r /\
    stream = consumed ++ unread r /\
    map snd (stores r) = chars_of consumed ++ repeat 255 pad /\
    (pad <> 0%nat -> unread r = []) /\
    buffer r = (chars_of consumed ++ repeat 255 pad)
                 ++ skipn (length (chars_of consumed) + pad) entry.
Proof.
  intros B. unfold GetInputString.
  destruct (gis_loop_returns (length stream + Z.to_nat size) entry size
              stream entry 0 0 [] B) as (r & R & P).
  - constructor; cbn; try lia; auto. intros E. discriminate E.
  - rewrite Z.sub_0_r. lia.
  - destruct (gis_loop_consumes _ _ _ _ _ _ _ _ R) as (consumed & pad & E & St & Pd).
    cbn [map app] in St.
    exists r, consumed, pad. repeat split; auto.
    rewrite (post_buffer _ _ _ P), <- St.
    replace (length (chars_of consumed) + pad)%nat
      with (length (map snd (stores r)))
      by (rewrite St, length_app, repeat_length; reflexivity).
    rewrite length_map. reflexivity.
Qed.

Lemma GetInputString_consumes_witness :
  4 <= Z.of_nat (length [0; 0; 0; 0]) /\
  exists r consumed pad,
    GetInputString [0; 0; 0; 0] 4 [x0d; x71; x0d]%byte = Return r /\
    [x0d; x71; x0d]%byte = consumed ++ unread r /\
    map snd (stores r) = chars_of consumed ++ repeat 255 pad.
Proof.
  assert (B : 4 <= Z.of_nat (length [0; 0; 0; 0])) by (cbn; lia).
  split; [exact B|].
  destruct (GetInputString_consumes [0; 0; 0; 0] 4 [x0d; x71; x0d]%byte B)
    as (r & consumed & pad & R & E & St & _).
  exists r, consumed, pad. repeat split; assumption.
Defined.

Lemma numbered_app i cs1 cs2 :
  numbered i (cs1 ++ cs2)
    = numbered i cs1 ++ numbered (i + Z.of_nat (length cs1)) cs2.
Proof.
  revert i. induction cs1 as [|c cs1 IH]; intros i; cbn [app numbered length].
  - rewrite Z.add_0_r. reflexivity.
  - rewrite IH. cbn [app]. do 3 f_equal. lia.
Qed.

Lemma numbered_snd i cs : map snd (numbered i cs) = cs.
Proof.
  revert i. induction cs as [|c cs IH]; intros i; cbn; [|rewrite IH]; reflexivity.
Qed.

Lemma numbered_length i cs : length (numbered i cs) = length cs.
Proof. rewrite <- (length_map snd), numbered_snd. reflexivity. Qed.

Lemma gis_loop_stops fuel cur size i stream done :
  GetInputString_loop fuel cur size i NL stream done
    = Return {| buffer := cur; unread := stream; stores := done |}.
Proof. destruct fuel; reflexivity. Qed.

Lemma gis_loop_line entry0 size rest line :
  forall fuel cur i ch done,
    ch <> NL ->
    i = Z.of_nat (length done) ->
    cur = map snd done ++ skipn (length done) entry0 ->
    size <= Z.of_nat (length entry0) ->
    ~ In x0a%byte line ->
    i + Z.of_nat (length (chars_of line)) < size ->
    (length line < fuel)%nat ->
    let done' := done ++ numbered i (chars_of line ++ [NL]) in
    GetInputString_loop fuel cur size i ch (line ++ (x0a :: rest)%byte) done
      = Return {| buffer := map snd done' ++ skipn (length done') entry0;
                  unread := rest;
                  stores := done' |}.
Proof.
  induction line as [|b line IH];
    intros fuel cur i ch done N Hi Hc B NoLF Fit Fuel done'; subst done'.
  - destruct fuel as [|fuel]; [cbn in Fuel; lia|].
    cbn [app chars_of map filter numbered length] in *.
    cbn [GetInputString_loop getc].
    apply Z.eqb_neq in N. rewrite N.
    assert (Lt : (i <? size) = true) by (apply Z.ltb_lt; lia). rewrite Lt.
    cbn [negb andb]. change (Z.of_N (Byte.to_N "010")) with NL.
    change (negb (NL =? CR)) with true. cbv iota.
    change (to_char NL) with NL.
    rewrite Hc, Hi, (gis_store entry0 done NL) by lia.
    apply gis_loop_stops.
  - destruct fuel as [|fuel]; [cbn in Fuel; lia|].
    assert (Nb : byte_val b <> NL).
    { intros E. apply NoLF. left. apply byte_val_inj. exact E. }
    assert (NoLF' : ~ In x0a%byte line) by (intros H; apply NoLF; right; exact H).
    cbn [app GetInputString_loop getc]. fold (byte_val b).
    pose proof N as N'. apply Z.eqb_neq in N'. rewrite N'.
    cbn [length] in Fuel.
    destruct (Z.eqb_spec (byte_val b) CR) as [E | K]; cbn [negb].
    + rewrite (chars_of_cons_cr b line E) in *.
      assert (Lt : (i <? size) = true) by (apply Z.ltb_lt; lia). rewrite Lt.
      cbn [andb].
      apply IH; auto; try lia; unfold CR, NL; lia.
    + rewrite (chars_of_cons_keep b line K) in *.
      cbn [length] in Fit.
      assert (Lt : (i <? size) = true) by (apply Z.ltb_lt; lia). rewrite Lt.
      cbn [andb]. rewrite to_char_byte_val.
      rewrite Hc, Hi, (gis_store entry0 done (byte_val b)) by lia.
      rewrite <- Hi.
      rewrite (IH fuel _ (i + 1) (byte_val b) (done ++ [(i, byte_val b)]));
        auto; try lia.
      * cbn [app numbered]. rewrite <- !app_assoc. reflexivity.
      * rewrite length_app. cbn [length]. lia.
Qed.

Lemma gis_line_return (entry : list Z) (size : Z) (line rest : list byte) :
  size <= Z.of_nat (length entry) ->
  ~ In x0a%byte line ->
  Z.of_nat (length (chars_of line)) < size ->
  GetInputString entry size (line ++ (x0a :: rest)%byte)
    = Return {| buffer := map snd (numbered 0 (chars_of line ++ [NL]))
                            ++ skipn (length (numbered 0 (chars_of line ++ [NL])))
                                 entry;
                unread := rest;
                stores := numbered 0 (chars_of line ++ [NL]) |}.
Proof.
  intros B NoLF Fit. unfold GetInputString.
  rewrite (gis_loop_line entry size rest line _ entry 0 0 []); auto.
  - unfold NL. lia.
  - rewrite length_app. cbn [length]. lia.
Qed.

(** X8.  Reading a line that fits.  When the stream starts with a line - bytes
    without ['\n'], then ['\n'] - whose characters other than ['\r'] are
    fewer than [size], the call stores exactly these characters and the
    ['\n'] at the front of the buffer, leaves the rest of the buffer as it was
    (no terminating NUL is written) and leaves the stream right behind the
    ['\n']. *)
Theorem GetInputString_line (entry : list Z) (size : Z) (line rest : list byte) :
  size <= Z.of_nat (length entry) ->
  ~ In x0a%byte line ->
  Z.of_nat (length (chars_of line)) < size ->
  exists r,
    GetInputString entry size (line ++ (x0a :: rest)%byte) = Return r /\
    unread r = rest /\
    stores r = numbered 0 (chars_of line ++ [NL]) /\
    buffer r = chars_of line ++ [NL]
                 ++ skipn (S (length (chars_of line))) entry.
Proof.
  intros B NoLF Fit.
  rewrite (gis_line_return entry size line rest B NoLF Fit).
  eexists. split; [reflexivity|]. cbn [unread stores buffer].
  split; [reflexivity|]. split; [reflexivity|].
  rewrite numbered_snd, numbered_length, length_app, <- app_assoc.
  cbn [length]. rewrite Nat.add_1_r. reflexivity.
Qed.

Lemma GetInputString_line_witness :
  4 <= Z.of_nat (length [1; 2; 3; 4]) /\
  exists r,
    GetInputString [1; 2; 3; 4] 4 ([x71; x0d] ++ (x0a :: [x61; x0a]))%byte
      = Return r /\
    unread r = [x61; x0a]%byte /\
    buffer r = chars_of [x71; x0d]%byte ++ [NL]
                 ++ skipn (S (length (chars_of [x71; x0d]%byte))) [1; 2; 3; 4].
Proof.
  assert (B : 4 <= Z.of_nat (length [1; 2; 3; 4])) by (cbn; lia).
  split; [exact B|].
  destruct (GetInputString_line [1; 2; 3; 4] 4 [x71; x0d]%byte [x61; x0a]%byte B)
    as (r & R & U & _ & Bf).
  - cbn. intros [H | [H | []]]; discriminate H.
  - cbn. lia.
  - exists r. repeat split; assumption.
Defined.

Lemma gis_first_parts (entry : list Z) (size : Z) (stream : list byte) :
  1 <= size <= Z.of_nat (length entry) ->
  exists r consumed pad,
    GetInputString entry size stream = Return r /\
    stream = consumed ++ unread r /\
    (pad <> 0%nat -> unread r = []) /\
    chars_of consumed ++ repeat 255 pad <> [] /\
    buffer r = (chars_of consumed ++ repeat 255 pad)
                 ++ skipn (length (stores r)) entry /\
    length (buffer r) = length entry.
Proof.
  intros [One B]. unfold GetInputString.
  destruct (gis_loop_returns (length stream + Z.to_nat size) entry size
              stream entry 0 0 [] B) as (r & R & P).
  - constructor; cbn; try lia; auto. intros E. discriminate E.
  - rewrite Z.sub_0_r. lia.
  - destruct (gis_loop_consumes _ _ _ _ _ _ _ _ R) as (consumed & pad & E & St & Pd).
    cbn [map app] in St.
    exists r, consumed, pad.
    split; [exact R|]. split; [exact E|]. split; [exact Pd|].
    split; [|split].
    + rewrite <- St. intros H. apply map_eq_nil in H.
      destruct (post_stop _ _ _ P) as [(before & i & L) | L].
      * rewrite H in L. destruct before; discriminate L.
      * rewrite H in L. cbn in L. lia.
    + rewrite (post_buffer _ _ _ P), St. reflexivity.
    + rewrite (post_buffer _ _ _ P), length_app, length_map, length_skipn.
      pose proof (post_count _ _ _ P). lia.
Qed.

Lemma first_char_of (consumed rest : list byte) (pad : nat) :
  (pad <> 0%nat -> rest = []) ->
  chars_of consumed ++ repeat 255 pad <> [] ->
  exists tl,
    chars_of consumed ++ repeat 255 pad
      = hd 255 (chars_of (consumed ++ rest)) :: tl.
Proof.
  intros Pd NE. rewrite chars_of_app.
  destruct (chars_of consumed) as [|c cs] eqn:C.
  - destruct pad as [|pad]; [cbn in NE; contradiction|].
    rewrite (Pd ltac:(discriminate)). cbn [chars_of map filter app repeat hd].
    eexists. reflexivity.
  - cbn [app hd]. eexists. reflexivity.
Qed.

(** X9.  The first character is always fresh: a call with [size] at least 1
    overwrites [entry[0]] with the first byte of the stream that is not
    ['\r'], or with 0xff when the stream has none; the buffer keeps its
    length. *)
Theorem GetInputString_first (entry : list Z) (size : Z) (stream : list byte) :
  1 <= size <= Z.of_nat (length entry) ->
  exists r tl,
    GetInputString entry size stream = Return r /\
    buffer r = hd 255 (chars_of stream) :: tl /\
    length (buffer r) = length entry.
Proof.
  intros R.
  destruct (gis_first_parts entry size stream R)
    as (r & consumed & pad & E & Es & Pd & NE & B & Len).
  destruct (first_char_of consumed (unread r) pad Pd NE) as [tl H].
  exists r. rewrite B, H, <- Es. cbn [app].
  eexists. split; [exact E|]. split; [reflexivity|].
  rewrite <- Len, B, H, <- Es. reflexivity.
Qed.

Lemma GetInputString_first_witness :
  1 <= 4 <= Z.of_nat (length [0; 0; 0; 0]) /\
  exists r tl,
    GetInputString [0; 0; 0; 0] 4 [x0d; x0d]%byte = Return r /\
    buffer r = hd 255 (chars_of [x0d; x0d]%byte) :: tl.
Proof.
  assert (B : 1 <= 4 <= Z.of_nat (length [0; 0; 0; 0])) by (cbn; lia).
  split; [exact B|].
  destruct (GetInputString_first [0; 0; 0; 0] 4 [x0d; x0d]%byte B)
    as (r & tl & R & Bf & _).
  exists r, tl. split; assumption.
Defined.

(* ------------------------------------------------------------------ *)
(** ** The menu choice *)

Lemma char_int_small sc b : 0 <= b < 128 -> char_int sc b = b.
Proof.
  intros R. unfold char_int.
  destruct (Z.leb_spec 128 b); [lia|]. rewrite andb_false_r. reflexivity.
Qed.

Lemma char_int_large sc b :
  128 <= b < 256 -> char_int sc b < 0 \/ 128 <= char_int sc b.
Proof.
  intros R. unfold char_int.
  destruct (Z.leb_spec 128 b); [|lia]. destruct sc; cbn; lia.
Qed.

Lemma chars_of_range bs : Forall (fun c => 0 <= c <= 255) (chars_of bs).
Proof.
  unfold chars_of. apply Forall_forall. intros c H.
  apply filter_In in H. destruct H as [H _].
  apply in_map_iff in H. destruct H as (b & <- & _). apply byte_val_range.
Qed.

Lemma key_of_input_range stdin : 0 <= key_of_input stdin <= 255.
Proof.
  unfold key_of_input. pose proof (chars_of_range stdin) as F.
  destruct (chars_of stdin) as [|c cs]; cbn; [lia|].
  inversion F; subst. assumption.
Qed.

(** Reading into a four character buffer: the first character is the key of
    the input. *)
Lemma read_first_key (entry : list Z) (stdin : list byte) :
  length entry = 4%nat ->
  exists r tl,
    GetInputString entry 4 stdin = Return r /\
    buffer r = key_of_input stdin :: tl /\
    length (buffer r) = 4%nat.
Proof.
  intros L.
  destruct (gis_first_parts entry 4 stdin)
    as (r & consumed & pad & E & Es & Pd & NE & B & Len);
    [rewrite L; cbn; lia|].
  destruct (first_char_of consumed (unread r) pad Pd NE) as [tl H].
  exists r. rewrite B, H, <- Es. cbn [app]. unfold key_of_input.
  eexists. split; [exact E|]. split; [reflexivity|].
  rewrite <- L, <- Len, B, H, <- Es. reflexivity.
Qed.

(** The key [MenuEnd] works on: the first character read, or the old [ch]
    when that character is NUL. *)
Lemma MenuEnd_reads sc lo hi st stdin :
  length (kv_entry st) = 4%nat ->
  exists tl,
    let k := key_of_input stdin in
    let c := if k =? 0 then kv_ch st else k in
    let ch :=
      let ch :=
        if (65 <=? char_int sc c) && (char_int sc c <=? 90)
        then to_char (char_int sc c + (97 - 65)) else c in
      if char_int sc ch =? 27 then 113 else ch in
    exists rest,
      MenuEnd sc lo hi st stdin =
        Some (char_int sc ch, {| kv_entry := k :: tl; kv_ch := ch |}, rest,
              [PrintExit; PrintRule; PrintSelect lo hi]) /\
      length (k :: tl) = 4%nat.
Proof.
  intros L.
  destruct (read_first_key (kv_entry st) stdin L) as (r & tl & R & B & Len).
  exists tl. cbn zeta. exists (unread r).
  unfold MenuEnd. rewrite R, B.
  cbn [sscanf_c].
  split; [|rewrite <- B; exact Len].
  destruct (key_of_input stdin =? 0); reflexivity.
Qed.

Lemma menu_key_steps sc c :
  0 <= c < 256 ->
  (let ch :=
     if (65 <=? char_int sc c) && (char_int sc c <=? 90)
     then to_char (char_int sc c + (97 - 65)) else c in
   if char_int sc ch =? 27 then 113 else ch) = menu_key c.
Proof.
  intros R. cbn zeta. unfold menu_key.
  destruct (Z.ltb_spec c 128) as [Small | Large].
  - rewrite (char_int_small sc c) by lia.
    destruct ((65 <=? c) && (c <=? 90)) eqn:U.
    + apply andb_true_iff in U. destruct U as [U1 U2].
      apply Z.leb_le in U1, U2.
      assert (E : to_char (c + (97 - 65)) = c + 32)
        by (unfold to_char; rewrite Z.mod_small; lia).
      rewrite E, (char_int_small sc (c + 32)) by lia.
      destruct (Z.eqb_spec (c + 32) 27); [lia|reflexivity].
    + rewrite (char_int_small sc c) by lia. reflexivity.
  - destruct (char_int_large sc c ltac:(lia)) as [Neg | Big].
    + replace ((65 <=? char_int sc c) && (char_int sc c <=? 90)) with false
        by (symmetry; apply andb_false_iff; left; apply Z.leb_gt; lia).
      replace ((65 <=? c) && (c <=? 90)) with false
        by (symmetry; apply andb_false_iff; right; apply Z.leb_gt; lia).
      destruct (Z.eqb_spec (char_int sc c) 27); [lia|].
      destruct (Z.eqb_spec c 27); [lia|reflexivity].
    + replace ((65 <=? char_int sc c) && (char_int sc c <=? 90)) with false
        by (symmetry; apply andb_false_iff; right; apply Z.leb_gt; lia).
      replace ((65 <=? c) && (c <=? 90)) with false
        by (symmetry; apply andb_false_iff; right; apply Z.leb_gt; lia).
      destruct (Z.eqb_spec (char_int sc c) 27); [lia|].
      destruct (Z.eqb_spec c 27); [lia|reflexivity].
Qed.

Lemma menu_key_range c : 0 <= c < 256 -> 0 <= menu_key c < 256.
Proof.
  intros R. unfold menu_key.
  destruct ((65 <=? c) && (c <=? 90)) eqn:U.
  - apply andb_true_iff in U. destruct U as [U1 U2].
    apply Z.leb_le in U1, U2. lia.
  - destruct (c =? 27); lia.
Qed.

Lemma menu_key_never c :
  0 <= c < 256 -> ~ (65 <= menu_key c <= 90) /\ menu_key c <> 27.
Proof.
  intros R. unfold menu_key.
  destruct ((65 <=? c) && (c <=? 90)) eqn:U.
  - apply andb_true_iff in U. destruct U as [U1 U2].
    apply Z.leb_le in U1, U2. lia.
  - apply andb_false_iff in U.
    destruct (Z.eqb_spec c 27); [lia|].
    destruct U as [U | U]; apply Z.leb_gt in U; lia.
Qed.

Lemma menu_key_quit c :
  0 <= c < 256 -> (menu_key c = 113 <-> c = 113 \/ c = 81 \/ c = 27).
Proof.
  intros R. unfold menu_key.
  destruct ((65 <=? c) && (c <=? 90)) eqn:U.
  - apply andb_true_iff in U. destruct U as [U1 U2].
    apply Z.leb_le in U1, U2. lia.
  - apply andb_false_iff in U.
    destruct (Z.eqb_spec c 27); [lia|].
    destruct U as [U | U]; apply Z.leb_gt in U; lia.
Qed.

(** X10.  The menu choice.  [MenuEnd] always returns (the static buffer has
    four characters).  The key it works on is the first character of the
    input other than ['\r'] - 0xff at end of file, and the previous [ch] when
    that character is NUL.  Its result is this key with capitals turned into
    small letters and Escape into ['q']: it is never a capital letter and
    never Escape, and it is ['q'] exactly for the keys ['q'], ['Q'] and
    Escape. *)
Theorem MenuEnd_choice (signed_char : bool) (lo hi : Z) (st : key_vars)
    (stdin : list byte) :
  length (kv_entry st) = 4%nat ->
  0 <= kv_ch st < 256 ->
  let k := key_of_input stdin in
  let c := if k =? 0 then kv_ch st else k in
  exists key st' rest out,
    MenuEnd signed_char lo hi st stdin = Some (key, st', rest, out) /\
    key = char_int signed_char (menu_key c) /\
    kv_ch st' = menu_key c /\
    length (kv_entry st') = 4%nat /\
    ~ (65 <= key <= 90) /\ key <> 27 /\
    (key = 113 <-> c = 113 \/ c = 81 \/ c = 27).
Proof.
  intros L Rch k c.
  assert (Rc : 0 <= c < 256).
  { subst c. pose proof (key_of_input_range stdin).
    destruct (k =? 0); [exact Rch|subst k; lia]. }
  destruct (MenuEnd_reads signed_char lo hi st stdin L) as (tl & rest & E & Len).
  fold k in E, Len. fold c in E.
  rewrite (menu_key_steps signed_char c Rc) in E.
  do 4 eexists. split; [exact E|].
  split; [reflexivity|]. split; [reflexivity|]. split; [exact Len|].
  pose proof (menu_key_range c Rc) as Rm.
  pose proof (menu_key_never c Rc) as [NU NE].
  pose proof (menu_key_quit c Rc) as Q.
  destruct (Z.ltb_spec (menu_key c) 128) as [Small | Large].
  - rewrite (char_int_small signed_char (menu_key c)) by lia.
    repeat split; auto; apply Q.
  - destruct (char_int_large signed_char (menu_key c) ltac:(lia)) as [Neg | Big].
    + split; [lia|]. split; [lia|]. split; [lia|].
      intros H. apply Q in H. lia.
    + split; [lia|]. split; [lia|]. split; [lia|].
      intros H. apply Q in H. lia.
Qed.

Lemma MenuEnd_choice_witness :
  let st := {| kv_entry := [0; 0; 0; 0]; kv_ch := 0 |} in
  length (kv_entry st) = 4%nat /\
  0 <= kv_ch st < 256 /\
  exists key st' rest out,
    MenuEnd true 97 102 st [x0d; x51; x0a]%byte = Some (key, st', rest, out) /\
    key = 113.
Proof.
  intros st.
  assert (L : length (kv_entry st) = 4%nat) by reflexivity.
  assert (R : 0 <= kv_ch st < 256) by (cbn; lia).
  split; [exact L|]. split; [exact R|].
  destruct (MenuEnd_choice true 97 102 st [x0d; x51; x0a]%byte L R)
    as (key & st' & rest & out & E & K & _).
  exists key, st', rest, out. split; [exact E|]. rewrite K. reflexivity.
Defined.

(* ------------------------------------------------------------------ *)
(** ** The seven segment display *)

Lemma below_256 (P : Z -> bool) :
  forallb (fun n => P (Z.of_nat n)) (seq 0 256) = true ->
  forall hex, 0 <= hex < 256 -> P hex = true.
Proof.
  intros H hex R. rewrite forallb_forall in H.
  rewrite <- (Z2Nat.id hex) by lia. apply H, in_seq. lia.
Qed.

Lemma sevenseg_read_back hex :
  0 <= hex < 256 -> sevenseg_read (sevenseg_data hex) = hex.
Proof.
  intros R. apply Z.eqb_eq. revert hex R.
  apply (below_256 (fun hex => sevenseg_read (sevenseg_data hex) =? hex)).
  vm_compute. reflexivity.
Qed.

(** X11.  [sevenseg_set_hex] puts the pattern of the low hex digit into bits
    0-6 of the word and the pattern of the high digit into bits 7-13, with
    nothing above; the word can be read back: two values of [hex] never give
    the same display. *)
Theorem sevenseg_layout (hex : Z) :
  0 <= hex < 256 ->
  0 <= sevenseg_data hex < 2 ^ 14 /\
  Z.land (sevenseg_data hex) 127 = segment (hex mod 16) /\
  Z.shiftr (sevenseg_data hex) 7 = segment (hex / 16) /\
  sevenseg_read (sevenseg_data hex) = hex /\
  forall hex', 0 <= hex' < 256 ->
    sevenseg_data hex' = sevenseg_data hex -> hex' = hex.
Proof.
  intros R.
  assert (A : (0 <=? sevenseg_data hex) && (sevenseg_data hex <? 2 ^ 14)
              && (Z.land (sevenseg_data hex) 127 =? segment (hex mod 16))
              && (Z.shiftr (sevenseg_data hex) 7 =? segment (hex / 16)) = true).
  { revert hex R. apply below_256. vm_compute. reflexivity. }
  rewrite !andb_true_iff in A. destruct A as [[[A1 A2] A3] A4].
  apply Z.leb_le in A1. apply Z.ltb_lt in A2. apply Z.eqb_eq in A3, A4.
  pose proof (sevenseg_read_back hex R) as Back.
  repeat split; auto.
  intros hex' R' E.
  rewrite <- (sevenseg_read_back hex' R'), E. exact Back.
Qed.

Lemma sevenseg_layout_witness :
  0 <= 0xa7 < 256 /\
  Z.land (sevenseg_data 0xa7) 127 = 0x78 /\
  Z.shiftr (sevenseg_data 0xa7) 7 = 0x08.
Proof.
  assert (R : 0 <= 0xa7 < 256) by lia.
  split; [exact R|].
  destruct (sevenseg_layout 0xa7 R) as (_ & L & H & _).
  split; [exact L|exact H].
Defined.

Lemma NoDup_map_in (A B : Type) (f : A -> B) (l : list A) :
  (forall a b, In a l -> In b l -> f a = f b -> a = b) ->
  NoDup l -> NoDup (map f l).
Proof.
  intros Inj N. induction N as [|x l Nx N IH]; cbn [map]; constructor.
  - intros H. apply in_map_iff in H. destruct H as (y & E & Hy).
    assert (y = x) by (apply Inj; [right; exact Hy|left; reflexivity|exact E]).
    subst y. contradiction.
  - apply IH. intros a b Ha Hb. apply Inj; right; assumption.
Qed.

Lemma SevenSegCount_loop_more fuel : forall count writes res extra,
  SevenSegCount_loop fuel count writes = Some res ->
  SevenSegCount_loop (fuel + extra) count writes = Some res.
Proof.
  induction fuel as [|fuel IH]; intros count writes res extra H;
    cbn [SevenSegCount_loop Nat.add] in *.
  - destruct (count <=? 0xff) eqn:C; [discriminate H|].
    destruct extra; cbn [SevenSegCount_loop]; rewrite C; exact H.
  - destruct (count <=? 0xff); [|exact H]. apply IH, H.
Qed.

(** X12.  [SevenSegCount] returns after exactly 256 writes to the seven
    segment PIO: the displays of 0x00, 0x01, ..., 0xff in this order, each
    different from all the others. *)
Theorem SevenSegCount_counts (fuel : nat) :
  (256 <= fuel)%nat ->
  exists writes,
    SevenSegCount fuel = Some writes /\
    writes = map (fun n => sevenseg_set_hex (Z.of_nat n)) (seq 0 256) /\
    length writes = 256%nat /\
    NoDup writes.
Proof.
  intros F.
  assert (R : SevenSegCount 256
              = Some (map (fun n => sevenseg_set_hex (Z.of_nat n)) (seq 0 256)))
    by (vm_compute; reflexivity).
  eexists. split; [|split; [reflexivity|split]].
  - replace fuel with (256 + (fuel - 256))%nat by lia.
    unfold SevenSegCount. apply SevenSegCount_loop_more. exact R.
  - rewrite length_map, length_seq. reflexivity.
  - apply NoDup_map_in; [|apply seq_NoDup].
    intros a b Ha Hb E. apply in_seq in Ha, Hb.
    unfold sevenseg_set_hex in E. injection E as E.
    apply Nat2Z.inj.
    rewrite <- (sevenseg_read_back (Z.of_nat a)) by lia.
    rewrite <- (sevenseg_read_back (Z.of_nat b)) by lia.
    rewrite E. reflexivity.
Qed.

Lemma SevenSegCount_counts_witness :
  (256 <= 300)%nat /\
  exists writes, SevenSegCount 300 = Some writes /\ length writes = 256%nat.
Proof.
  assert (F : (256 <= 300)%nat) by lia.
  split; [exact F|].
  destruct (SevenSegCount_counts 300 F) as (writes & R & _ & L & _).
  exists writes. split; [exact R|exact L].
Defined.

(* ------------------------------------------------------------------ *)
(** ** The keys of [SevenSegControl] *)

(** The five branches of the pattern algorithm. *)
Lemma key_bit_cases c :
  (97 <= c <= 103 /\ key_bit c = 2 ^ (103 - c)) \/
  (c = 104 /\ key_bit c = 2 ^ 7) \/
  (65 <= c <= 71 /\ key_bit c = 2 ^ (79 - c)) \/
  (c = 72 /\ key_bit c = 2 ^ 15) \/
  (~ (97 <= c <= 104) /\ ~ (65 <= c <= 72) /\ key_bit c = 0).
Proof.
  unfold key_bit. cbn zeta.
  destruct (Z.leb_spec 97 c), (Z.leb_spec c 103); cbn [andb].
  - left. split; [lia|]. apply Z.shiftl_1_l.
  - destruct (Z.eqb_spec c 104) as [-> | N].
    + right. left. split; reflexivity.
    + replace ((65 <=? c) && (c <=? 71)) with false
        by (symmetry; apply andb_false_iff; right; apply Z.leb_gt; lia).
      destruct (Z.eqb_spec c 72); [lia|].
      right. right. right. right. repeat split; lia.
  - destruct (Z.eqb_spec c 104); [lia|].
    destruct (Z.leb_spec 65 c), (Z.leb_spec c 71); cbn [andb].
    + right. right. left. split; [lia|].
      rewrite Z.shiftl_1_l. f_equal. lia.
    + destruct (Z.eqb_spec c 72) as [-> | N].
      * right. right. right. left. split; reflexivity.
      * right. right. right. right. repeat split; lia.
    + destruct (Z.eqb_spec c 72); [lia|].
      right. right. right. right. repeat split; lia.
    + lia.
  - lia.
Qed.

Lemma key_bit_single c :
  key_bit c = 0 \/ exists i, 0 <= i < 16 /\ key_bit c = 2 ^ i.
Proof.
  destruct (key_bit_cases c)
    as [[R E] | [[R E] | [[R E] | [[R E] | (_ & _ & E)]]]];
    [right; exists (103 - c) | right; exists 7 | right; exists (79 - c)
     | right; exists 15 | left; exact E];
    (split; [lia|exact E]).
Qed.

(** X13.  The sixteen keys of [SevenSegControl].  Each of the keys ['a'] to
    ['h'] and ['A'] to ['H'] toggles one bit among bits 0-15 of the display
    word, no two keys the same bit, and each of the sixteen bits has its key;
    any other character - ['q'] among them - toggles nothing. *)
Theorem key_bit_segments :
  (forall c, key_bit c <> 0 <-> 97 <= c <= 104 \/ 65 <= c <= 72) /\
  (forall c, key_bit c = 0 \/ exists i, 0 <= i < 16 /\ key_bit c = 2 ^ i) /\
  (forall c c', key_bit c <> 0 -> key_bit c' = key_bit c -> c' = c) /\
  (forall i, 0 <= i < 16 -> exists c, key_bit c = 2 ^ i) /\
  key_bit 113 = 0.
Proof.
  assert (Pos : forall n, 0 <= n -> 2 ^ n <> 0).
  { intros n Hn. pose proof (Z.pow_pos_nonneg 2 n). lia. }
  split; [|split; [exact key_bit_single|split; [|split]]].
  - intros c.
    destruct (key_bit_cases c)
      as [[R E] | [[R E] | [[R E] | [[R E] | (N1 & N2 & E)]]]]; rewrite E.
    + split; [lia|]. intros _. apply Pos. lia.
    + split; [lia|]. intros _. apply Pos. lia.
    + split; [lia|]. intros _. apply Pos. lia.
    + split; [lia|]. intros _. apply Pos. lia.
    + split; [congruence|lia].
  - intros c c' N E.
    assert (Inj : forall a b, 0 <= a -> 0 <= b -> 2 ^ a = 2 ^ b -> a = b).
    { intros a b Ha Hb H. apply (Z.pow_inj_r 2); lia. }
    destruct (key_bit_cases c)
      as [[R Ec] | [[R Ec] | [[R Ec] | [[R Ec] | (_ & _ & Ec)]]]];
      [| | | |congruence];
      destruct (key_bit_cases c')
        as [[R' Ec'] | [[R' Ec'] | [[R' Ec'] | [[R' Ec'] | (_ & _ & Ec')]]]];
      rewrite Ec, Ec' in *;
      try (apply Inj in E; lia);
      try (exfalso; symmetry in E; revert E; apply Pos; lia).
  - intros i R.
    destruct (Z.le_gt_cases i 6); [exists (103 - i)|].
    + destruct (key_bit_cases (103 - i))
        as [[_ E] | [[? _] | [[? _] | [[? _] | (? & _ & _)]]]]; try lia.
      rewrite E. f_equal. lia.
    + destruct (Z.eq_dec i 7) as [-> | N7]; [exists 104; reflexivity|].
      destruct (Z.eq_dec i 15) as [-> | N15]; [exists 72; reflexivity|].
      exists (79 - i).
      destruct (key_bit_cases (79 - i))
        as [[? _] | [[? _] | [[_ E] | [[? _] | (_ & ? & _)]]]]; try lia.
      rewrite E. f_equal. lia.
  - reflexivity.
Qed.

Lemma key_bit_segments_witness :
  key_bit 97 <> 0 /\ forall c', key_bit c' = key_bit 97 -> c' = 97.
Proof.
  assert (N : key_bit 97 <> 0) by (cbn; discriminate).
  split; [exact N|].
  intros c'. apply (proj1 (proj2 (proj2 key_bit_segments)) 97 c' N).
Defined.

(* ------------------------------------------------------------------ *)
(** ** Reading keys from a script of lines *)

Lemma script_cons line lines rest :
  script (line :: lines) ++ rest
    = line ++ (x0a :: (script lines ++ rest))%byte.
Proof.
  unfold script. cbn [map concat]. rewrite <- !app_assoc. reflexivity.
Qed.

Lemma key_of_line_range line : 0 <= key_of_line line < 256.
Proof.
  unfold key_of_line. pose proof (chars_of_range line) as F.
  destruct (chars_of line) as [|c cs]; cbn; [unfold NL; lia|].
  inversion F; subst. lia.
Qed.

Lemma next_ch_range ch line :
  0 <= ch < 256 -> 0 <= next_ch ch line < 256.
Proof.
  intros R. unfold next_ch. pose proof (key_of_line_range line).
  destruct (key_of_line line =? 0); lia.
Qed.

Lemma char_int_is_q sc b :
  0 <= b < 256 -> (char_int sc b =? 113) = (b =? 113).
Proof.
  intros R. destruct (Z.ltb_spec b 128).
  - rewrite char_int_small by lia. reflexivity.
  - destruct (char_int_large sc b ltac:(lia)).
    + destruct (Z.eqb_spec (char_int sc b) 113), (Z.eqb_spec b 113);
        try reflexivity; lia.
    + destruct (Z.eqb_spec (char_int sc b) 113), (Z.eqb_spec b 113);
        try reflexivity; lia.
Qed.

(** One key read from a script: [GetInputString] takes the line, [sscanf]
    its first character. *)
Lemma read_script_line st line rest :
  length (kv_entry st) = 4%nat -> short_line line ->
  exists r,
    GetInputString (kv_entry st) 4 (line ++ (x0a :: rest)%byte) = Return r /\
    unread r = rest /\
    length (buffer r) = 4%nat /\
    sscanf_c (buffer r) (kv_ch st)
      = (if key_of_line line =? 0 then EOF else 1, next_ch (kv_ch st) line).
Proof.
  intros L [NoLF Fit].
  rewrite (gis_line_return (kv_entry st) 4 line rest);
    [|rewrite L; cbn; lia|exact NoLF|lia].
  eexists. split; [reflexivity|]. cbn [unread buffer].
  split; [reflexivity|].
  rewrite numbered_snd, numbered_length.
  split.
  - rewrite !length_app, length_skipn, L. cbn [length]. lia.
  - unfold sscanf_c, next_ch, key_of_line.
    destruct (chars_of line) as [|c cs]; cbn [app hd].
    + reflexivity.
    + destruct (c =? 0); reflexivity.
Qed.

Lemma TestLEDs_loop_script sc rest last before : forall st fuel,
  length (kv_entry st) = 4%nat ->
  0 <= kv_ch st < 256 ->
  Forall short_line before -> short_line last ->
  Forall (fun c => c <> 113) (keys_from (kv_ch st) before) ->
  next_ch (fold_left next_ch before (kv_ch st)) last = 113 ->
  (length before < fuel)%nat ->
  exists entry',
    TestLEDs_loop sc fuel st (script (before ++ [last]) ++ rest)
      = Some ({| kv_entry := entry'; kv_ch := 113 |}, rest) /\
    length entry' = 4%nat.
Proof.
  induction before as [|line before IH]; intros st fuel L R Sb Sl NQ Q F;
    (destruct fuel as [|fuel]; [cbn in F; lia|]);
    cbn [app].
  - rewrite script_cons. cbn [TestLEDs_loop].
    destruct (read_script_line st last (script [] ++ rest) L Sl)
      as (r & -> & U & Lb & ->).
    cbn [fold_left] in Q. rewrite Q. rewrite char_int_is_q by lia.
    cbn [Z.eqb Pos.eqb negb]. rewrite U.
    exists (buffer r). split; [reflexivity|exact Lb].
  - rewrite script_cons. cbn [TestLEDs_loop].
    inversion Sb as [|? ? Sline Sb']; subst.
    cbn [keys_from] in NQ. inversion NQ as [|? ? NQ1 NQ']; subst.
    destruct (read_script_line st line (script (before ++ [last]) ++ rest)
                L Sline) as (r & -> & U & Lb & ->).
    pose proof (next_ch_range _ line R) as R'.
    rewrite char_int_is_q by exact R'.
    apply Z.eqb_neq in NQ1. rewrite NQ1. cbn [negb]. rewrite U.
    apply IH; cbn [kv_entry kv_ch]; auto.
    cbn [length] in F. lia.
Qed.

(** X14.  [TestLEDs] on a script of lines that fit the buffer: all LEDs are
    switched on first; the test reads one line per pass, takes its first
    character as the key (keeping the previous one when the character is NUL)
    and returns at the first key ['q'], with the LEDs switched off as its
    last write and the input after that line unread. *)
Theorem TestLEDs_script (signed_char : bool) (st : key_vars)
    (before : list (list byte)) (last rest : list byte) (fuel : nat) :
  length (kv_entry st) = 4%nat ->
  0 <= kv_ch st < 256 ->
  Forall short_line before -> short_line last ->
  Forall (fun c => c <> 113) (keys_from (kv_ch st) before) ->
  next_ch (fold_left next_ch before (kv_ch st)) last = 113 ->
  (length before < fuel)%nat ->
  exists e,
    TestLEDs signed_char fuel st (script (before ++ [last]) ++ rest) = Some e /\
    end_stdin e = rest /\
    kv_ch (end_vars e) = 113 /\
    end_writes e = [(LED_PIO_BASE, 0xff); (LED_PIO_BASE, 0x0)] /\
    end_stdout e = [PrintLedsOn; PrintPressQ; PrintLedsExit].
Proof.
  intros L R Sb Sl NQ Q F.
  destruct (TestLEDs_loop_script signed_char rest last before st fuel
              L R Sb Sl NQ Q F) as (entry' & E & _).
  unfold TestLEDs. rewrite E.
  eexists. split; [reflexivity|]. repeat split.
Qed.

Lemma TestLEDs_script_witness :
  let st := {| kv_entry := [0; 0; 0; 0]; kv_ch := 0 |} in
  let before := [[x61]; [x0d]; [x51; x0d]]%byte in
  exists e,
    TestLEDs true 4 st (script (before ++ [[x71; x0d]%byte]) ++ [x62; x0a]%byte)
      = Some e /\
    end_stdin e = [x62; x0a]%byte /\
    end_writes e = [(LED_PIO_BASE, 0xff); (LED_PIO_BASE, 0x0)].
Proof.
  intros st before.
  assert (S : forall l, In l (before ++ [[x71; x0d]%byte]) -> short_line l).
  { intros l H. cbn in H.
    repeat (destruct H as [<- | H];
            [split; [cbn; intuition discriminate|cbn; lia]|]).
    contradiction. }
  destruct (TestLEDs_script true st before [x71; x0d]%byte [x62; x0a]%byte 4)
    as (e & E & I & _ & W & _).
  - reflexivity.
  - cbn. lia.
  - apply Forall_forall. intros l H. apply S, in_or_app. left. exact H.
  - apply S, in_or_app. right. left. reflexivity.
  - cbn. repeat constructor; discriminate.
  - reflexivity.
  - cbn. lia.
  - exists e. repeat split; assumption.
Defined.

(* ------------------------------------------------------------------ *)
(** ** [SevenSegControl] *)

Lemma lxor_below_pow2 a b n :
  0 <= n -> 0 <= a < 2 ^ n -> 0 <= b < 2 ^ n -> 0 <= Z.lxor a b < 2 ^ n.
Proof.
  intros Hn Ha Hb.
  assert (H0 : 0 <= Z.lxor a b) by (apply Z.lxor_nonneg; lia).
  split; [exact H0|].
  destruct (Z.eq_dec (Z.lxor a b) 0) as [E | E].
  - rewrite E. apply Z.pow_pos_nonneg; lia.
  - apply Z.log2_lt_pow2; [lia|].
    pose proof (Z.log2_lxor a b ltac:(lia) ltac:(lia)) as M.
    assert (La : Z.log2 a < n \/ a = 0).
    { destruct (Z.eq_dec a 0); [now right|left].
      apply Z.log2_lt_pow2; lia. }
    assert (Lb : Z.log2 b < n \/ b = 0).
    { destruct (Z.eq_dec b 0); [now right|left].
      apply Z.log2_lt_pow2; lia. }
    pose proof (Z.log2_nonneg a). pose proof (Z.log2_nonneg b).
    destruct La as [La | La], Lb as [Lb | Lb]; subst;
      rewrite ?Z.lxor_0_l, ?Z.lxor_0_r in *; cbn [Z.log2] in *; lia.
Qed.

Lemma key_bit_range c : 0 <= key_bit c < 2 ^ 16.
Proof.
  destruct (key_bit_single c) as [-> | (i & R & ->)].
  - split; [lia|reflexivity].
  - split; [apply Z.pow_nonneg; lia|apply Z.pow_lt_mono_r; lia].
Qed.

Lemma toggled_range sc keys : forall bits,
  0 <= bits < 2 ^ 16 ->
  Forall (fun b => 0 <= b < 2 ^ 16) (toggled sc bits keys).
Proof.
  induction keys as [|k keys IH]; intros bits R; cbn [toggled]; constructor.
  - apply lxor_below_pow2; [lia|exact R|apply key_bit_range].
  - apply IH. apply lxor_below_pow2; [lia|exact R|apply key_bit_range].
Qed.

Lemma last_cons_default (A : Type) (l : list A) : forall x d,
  last (x :: l) d = last l x.
Proof.
  induction l as [|y l IH]; intros x d; [reflexivity|].
  change (last (x :: y :: l) d) with (last (y :: l) d).
  rewrite (IH y d), (IH y x). reflexivity.
Qed.

Lemma key_bit_testbit c i :
  0 <= i -> Z.testbit (key_bit c) i = (key_bit c =? 2 ^ i).
Proof.
  intros Hi.
  assert (P : 0 < 2 ^ i) by (apply Z.pow_pos_nonneg; lia).
  destruct (key_bit_single c) as [-> | (j & R & ->)].
  - rewrite Z.bits_0. symmetry. apply Z.eqb_neq. lia.
  - rewrite Z.pow2_bits_eqb by lia.
    destruct (Z.eqb_spec j i) as [-> | N].
    + symmetry. apply Z.eqb_refl.
    + symmetry. apply Z.eqb_neq. intros E. apply N.
      apply (Z.pow_inj_r 2); lia.
Qed.

Lemma toggled_testbit sc i keys : forall bits,
  0 <= i ->
  Z.testbit (last (toggled sc bits keys) bits) i
    = xorb (Z.testbit bits i) (Nat.odd (presses_of sc i keys)).
Proof.
  induction keys as [|k keys IH]; intros bits Hi.
  - cbn. rewrite xorb_false_r. reflexivity.
  - cbn [toggled].
    set (bits' := Z.lxor bits (key_bit (char_int sc k))).
    rewrite last_cons_default.
    rewrite IH by exact Hi. subst bits'.
    rewrite Z.lxor_spec, (key_bit_testbit _ i Hi).
    unfold presses_of. cbn [filter].
    destruct (key_bit (char_int sc k) =? 2 ^ i); cbn [length].
    + rewrite Nat.odd_succ, <- Nat.negb_odd.
      destruct (Z.testbit bits i), (Nat.odd _); reflexivity.
    + rewrite xorb_false_r. reflexivity.
Qed.

Lemma last_map_pair (l : list Z) :
  last (map (pair SEVEN_SEG_PIO_BASE) (65535 :: l)) (SEVEN_SEG_PIO_BASE, 65535)
    = (SEVEN_SEG_PIO_BASE, last l 65535).
Proof.
  cbn [map]. rewrite last_cons_default.
  generalize 65535. induction l as [|x l IH]; intros d; [reflexivity|].
  cbn [map]. rewrite !last_cons_default. apply IH.
Qed.

Lemma SevenSegControl_loop_script sc rest last before :
  forall st fuel bits writes,
  length (kv_entry st) = 4%nat ->
  0 <= kv_ch st < 256 ->
  Forall short_line before -> short_line last ->
  Forall (fun c => c <> 113) (keys_from (kv_ch st) before) ->
  next_ch (fold_left next_ch before (kv_ch st)) last = 113 ->
  (length before < fuel)%nat ->
  exists entry',
    SevenSegControl_loop sc fuel st bits
        (script (before ++ [last]) ++ rest) writes
      = Some ({| kv_entry := entry'; kv_ch := 113 |}, rest,
              writes ++ map (pair SEVEN_SEG_PIO_BASE)
                          (toggled sc bits
                             (keys_from (kv_ch st) (before ++ [last])))) /\
    length entry' = 4%nat.
Proof.
  induction before as [|line before IH];
    intros st fuel bits writes L R Sb Sl NQ Q F;
    (destruct fuel as [|fuel]; [cbn in F; lia|]);
    cbn [app].
  - rewrite script_cons. cbn [SevenSegControl_loop].
    destruct (read_script_line st last (script [] ++ rest) L Sl)
      as (r & -> & U & Lb & ->).
    cbn [fold_left] in Q. cbn [keys_from toggled map]. rewrite Q.
    rewrite char_int_is_q by lia.
    cbn [Z.eqb Pos.eqb negb]. rewrite U.
    exists (buffer r). split; [reflexivity|exact Lb].
  - rewrite script_cons. cbn [SevenSegControl_loop].
    inversion Sb as [|? ? Sline Sb']; subst.
    cbn [keys_from] in NQ. inversion NQ as [|? ? NQ1 NQ']; subst.
    destruct (read_script_line st line (script (before ++ [last]) ++ rest)
                L Sline) as (r & -> & U & Lb & ->).
    pose proof (next_ch_range _ line R) as R'.
    rewrite char_int_is_q by exact R'.
    apply Z.eqb_neq in NQ1. rewrite NQ1. cbn [negb]. rewrite U.
    cbn [keys_from toggled map].
    set (st' := {| kv_entry := buffer r; kv_ch := next_ch (kv_ch st) line |}).
    destruct (IH st' fuel
                (Z.lxor bits (key_bit (char_int sc (next_ch (kv_ch st) line))))
                (writes ++ [(SEVEN_SEG_PIO_BASE,
                             Z.lxor bits
                               (key_bit (char_int sc (next_ch (kv_ch st) line))))]))
      as (entry' & E & Le); cbn [st' kv_entry kv_ch]; auto.
    + cbn [length] in F. lia.
    + exists entry'. split; [|exact Le].
      rewrite E, <- app_assoc. reflexivity.
Qed.

(** X15.  [SevenSegControl] on a script of lines that fit the buffer.  The
    test first writes 0xffff, then after each line the word with the bit of
    that line's key toggled, and returns at the first key ['q'] with the rest
    of the input unread.  Every word written stays within bits 0-15, and in
    the last one bit [i] differs from its start value 1 exactly when the keys
    of bit [i] were pressed an odd number of times - so pressing a key twice
    cancels out and the order of the keys does not matter. *)
Theorem SevenSegControl_script (signed_char : bool) (st : key_vars)
    (before : list (list byte)) (last_line rest : list byte) (fuel : nat) :
  length (kv_entry st) = 4%nat ->
  0 <= kv_ch st < 256 ->
  Forall short_line before -> short_line last_line ->
  Forall (fun c => c <> 113) (keys_from (kv_ch st) before) ->
  next_ch (fold_left next_ch before (kv_ch st)) last_line = 113 ->
  (length before < fuel)%nat ->
  let keys := keys_from (kv_ch st) (before ++ [last_line]) in
  exists e,
    SevenSegControl signed_char fuel st
      (script (before ++ [last_line]) ++ rest) = Some e /\
    end_stdin e = rest /\
    kv_ch (end_vars e) = 113 /\
    end_writes e
      = map (pair SEVEN_SEG_PIO_BASE) (0xffff :: toggled signed_char 0xffff keys) /\
    length (end_writes e) = S (S (length before)) /\
    Forall (fun w => 0 <= snd w <= 0xffff) (end_writes e) /\
    forall i, 0 <= i < 16 ->
      Z.testbit (snd (last (end_writes e) (SEVEN_SEG_PIO_BASE, 0xffff))) i
        = negb (Nat.odd (presses_of signed_char i keys)).
Proof.
  intros L R Sb Sl NQ Q F keys.
  destruct (SevenSegControl_loop_script signed_char rest last_line before st
              fuel 0xffff [(SEVEN_SEG_PIO_BASE, 0xffff)] L R Sb Sl NQ Q F)
    as (entry' & E & _).
  unfold SevenSegControl. rewrite E. fold keys.
  eexists. split; [reflexivity|]. cbn [end_stdin end_vars end_writes kv_ch].
  split; [reflexivity|]. split; [reflexivity|]. split; [reflexivity|].
  assert (Len : length (toggled signed_char 0xffff keys) = S (length before)).
  { subst keys. clear. generalize (kv_ch st), 0xffff.
    induction before as [|l before IH]; intros c b; cbn; [reflexivity|].
    rewrite IH. reflexivity. }
  split; [cbn [app length]; rewrite length_map, Len; reflexivity|].
  split.
  - cbn [app]. constructor; [cbn; lia|].
    apply Forall_map.
    pose proof (toggled_range signed_char keys 0xffff ltac:(cbn; lia)) as T.
    revert T. apply Forall_impl. intros b Hb. cbn [snd].
    change (2 ^ 16) with 65536 in Hb. lia.
  - intros i Ri. cbn [app].
    match goal with
    | |- Z.testbit (snd ?t) i = _ =>
        replace t
          with (SEVEN_SEG_PIO_BASE, last (toggled signed_char 0xffff keys) 0xffff)
          by (symmetry; apply last_map_pair)
    end.
    cbn [snd]. rewrite toggled_testbit by lia.
    replace (Z.testbit 0xffff i) with true; [reflexivity|].
    symmetry. change 0xffff with (Z.ones 16).
    apply Z.ones_spec_low. lia.
Qed.

Lemma SevenSegControl_script_witness :
  let st := {| kv_entry := [7; 7; 7; 7]; kv_ch := 0 |} in
  let before := [[x61]; [x48; x0d]; [x61]]%byte in
  exists e,
    SevenSegControl false 4 st
      (script (before ++ [[x71]%byte]) ++ [x0a]%byte) = Some e /\
    end_stdin e = [x0a]%byte /\
    map snd (end_writes e) = [0xffff; 0xffbf; 0x7fbf; 0x7fff; 0x7fff].
Proof.
  intros st before.
  assert (S : forall l, In l (before ++ [[x71]%byte]) -> short_line l).
  { intros l H. cbn in H.
    repeat (destruct H as [<- | H];
            [split; [cbn; intuition discriminate|cbn; lia]|]).
    contradiction. }
  destruct (SevenSegControl_script false st before [x71]%byte [x0a]%byte 4)
    as (e & E & I & _ & W & _).
  - reflexivity.
  - cbn. lia.
  - apply Forall_forall. intros l H. apply S, in_or_app. left. exact H.
  - apply S, in_or_app. right. left. reflexivity.
  - cbn. repeat constructor; discriminate.
  - reflexivity.
  - cbn. lia.
  - exists e. split; [exact E|]. split; [exact I|]. rewrite W. reflexivity.
Defined.

(* ------------------------------------------------------------------ *)
(** ** [UARTSendLots] *)

Lemma char_int_is sc b v :
  0 <= b < 256 -> 0 <= v < 128 -> (char_int sc b =? v) = (b =? v).
Proof.
  intros R V. destruct (Z.ltb_spec b 128).
  - rewrite char_int_small by lia. reflexivity.
  - destruct (char_int_large sc b ltac:(lia));
      destruct (Z.eqb_spec (char_int sc b) v), (Z.eqb_spec b v);
      try reflexivity; lia.
Qed.

Lemma send_chars_plain sc n : forall ch out,
  UARTSendLots_chars sc 0 n ch out
    = (ch, out ++ map PrintChar (repeat ch n)).
Proof.
  induction n as [|n IH]; intros ch out; cbn [UARTSendLots_chars repeat map].
  - rewrite app_nil_r. reflexivity.
  - cbn [Z.eqb negb]. rewrite IH, <- app_assoc. reflexivity.
Qed.

Lemma send_lines_plain sc n : forall ch out,
  UARTSendLots_lines sc 0 n ch out
    = (ch, out ++ concat (repeat (map PrintChar (repeat ch 80)
                                    ++ [PrintNewline]) n)).
Proof.
  induction n as [|n IH]; intros ch out; cbn [UARTSendLots_lines repeat concat].
  - rewrite app_nil_r. reflexivity.
  - rewrite send_chars_plain, IH, <- !app_assoc. reflexivity.
Qed.

Lemma map_const_seq (A : Type) (x : A) n : forall s,
  map (fun _ => x) (seq s n) = repeat x n.
Proof.
  induction n as [|n IH]; intros s; cbn; [|rewrite IH]; reflexivity.
Qed.

Lemma block_const c :
  block (fun _ => c)
    = concat (repeat (map PrintChar (repeat c 80) ++ [PrintNewline]) 100).
Proof.
  unfold block. rewrite (map_const_seq _ (PrintChar c)).
  rewrite (map_const_seq _ _ 100 0). rewrite map_repeat. reflexivity.
Qed.

(** The value of [ch] before character [k] of the mix is sent. *)
Lemma mix_char_succ k :
  mix_char (S k) = if mix_char k =? 126 then 33 else mix_char k + 1.
Proof.
  unfold mix_char. rewrite Nat2Z.inj_succ. unfold Z.succ.
  pose proof (Z.div_mod (Z.of_nat k) 94 ltac:(lia)) as D.
  pose proof (Z.mod_pos_bound (Z.of_nat k) 94 ltac:(lia)) as B.
  set (q := Z.of_nat k / 94) in *. set (r := Z.of_nat k mod 94) in *.
  destruct (Z.eqb_spec (33 + r) 126) as [E | N].
  - replace ((Z.of_nat k + 1) mod 94) with 0; [reflexivity|].
    apply (Z.mod_unique _ _ (q + 1)); lia.
  - replace ((Z.of_nat k + 1) mod 94) with (r + 1); [lia|].
    apply (Z.mod_unique _ _ q); lia.
Qed.

Lemma mix_char_range k : 33 <= mix_char k <= 126.
Proof.
  unfold mix_char.
  pose proof (Z.mod_pos_bound (Z.of_nat k) 94 ltac:(lia)). lia.
Qed.

Lemma mix_step sc k (ch := match k with O => 32 | S k' => mix_char k' end) :
  (if 127 <=? char_int sc (to_char (char_int sc ch + 1))
   then 33 else to_char (char_int sc ch + 1)) = mix_char k.
Proof.
  assert (Step : forall c, 32 <= c <= 126 ->
             (if 127 <=? char_int sc (to_char (char_int sc c + 1))
              then 33 else to_char (char_int sc c + 1))
               = if c =? 126 then 33 else c + 1).
  { intros c R.
    rewrite (char_int_small sc c) by lia.
    assert (E : to_char (c + 1) = c + 1)
      by (unfold to_char; apply Z.mod_small; lia).
    rewrite E. rewrite (char_int_small sc (c + 1)) by lia.
    destruct (Z.leb_spec 127 (c + 1)), (Z.eqb_spec c 126); try lia; reflexivity. }
  subst ch. destruct k as [|k].
  - rewrite (Step 32) by lia. reflexivity.
  - pose proof (mix_char_range k).
    rewrite (Step (mix_char k)) by lia. symmetry. apply mix_char_succ.
Qed.

Lemma send_chars_mix sc n : forall k out,
  UARTSendLots_chars sc 1 n
      (match k with O => 32 | S k' => mix_char k' end) out
    = (match (k + n)%nat with O => 32 | S k' => mix_char k' end,
       out ++ map (fun j => PrintChar (mix_char (k + j))) (seq 0 n)).
Proof.
  induction n as [|n IH]; intros k out.
  - cbn [UARTSendLots_chars seq map]. rewrite Nat.add_0_r, app_nil_r.
    reflexivity.
  - cbn [UARTSendLots_chars Z.eqb negb]. cbv zeta.
    rewrite (mix_step sc k).
    rewrite (IH (S k)). cbn [seq map].
    rewrite <- app_assoc, Nat.add_0_r, Nat.add_succ_r. cbn [app Nat.add].
    rewrite <- seq_shift, map_map. do 3 f_equal.
    apply map_ext. intros j. rewrite Nat.add_succ_r. reflexivity.
Qed.

Lemma send_lines_mix_from sc n : forall i out,
  UARTSendLots_lines sc 1 n
      (match (80 * i)%nat with O => 32 | S k' => mix_char k' end) out
    = (match (80 * (i + n))%nat with O => 32 | S k' => mix_char k' end,
       out ++ concat (map (fun i' =>
                             map (fun j => PrintChar (mix_char (80 * i' + j)))
                                 (seq 0 80) ++ [PrintNewline])
                          (seq i n))).
Proof.
  induction n as [|n IH]; intros i out.
  - cbn [UARTSendLots_lines seq map concat]. rewrite Nat.add_0_r, app_nil_r.
    reflexivity.
  - cbn [UARTSendLots_lines]. rewrite send_chars_mix.
    replace (80 * i + 80)%nat with (80 * S i)%nat by lia.
    rewrite (IH (S i)). cbn [seq map concat].
    replace (S i + n)%nat with (i + S n)%nat by lia.
    rewrite <- !app_assoc. reflexivity.
Qed.

Lemma send_lines_mix sc out :
  exists ch,
    UARTSendLots_lines sc 1 100 32 out = (ch, out ++ block mix_char).
Proof. eexists. exact (send_lines_mix_from sc 100 0 out). Qed.

(** X16.  What [UARTSendLots] sends.  After the prompt and the echo of the
    key read, it prints a block of exactly 100 lines of 80 characters and one
    more newline.  When the key is a space the block is the mix ['!'] to
    ['~'] repeated without a break across the lines, so every character
    is between 33 and 126; otherwise all 8000 characters are the key itself,
    or ['.'] when the key is below 32 as a [char]. *)
Theorem UARTSendLots_block (signed_char : bool) (st : key_vars)
    (stdin : list byte) :
  length (kv_entry st) = 4%nat ->
  0 <= kv_ch st < 256 ->
  let k := key_of_input stdin in
  let key := if k =? 0 then kv_ch st else k in
  let c := if char_int signed_char key <? 32 then 46 else key in
  exists e,
    UARTSendLots signed_char st stdin = Some e /\
    end_writes e = [] /\
    end_stdout e
      = [PrintUartPrompt; PrintEcho key]
          ++ block (if c =? 32 then mix_char else fun _ => c)
          ++ [PrintNewline] /\
    (forall n, 33 <= mix_char n <= 126) /\
    32 <= char_int signed_char c.
Proof.
  intros L Rch k key c.
  assert (Rc : 0 <= c < 256).
  { subst c key. pose proof (key_of_input_range stdin).
    destruct (_ <? 32); [lia|]. destruct (k =? 0); [exact Rch|subst k; lia]. }
  destruct (read_first_key (kv_entry st) stdin L) as (r & tl & R & B & Len).
  fold k in B.
  assert (S : sscanf_c (buffer r) (kv_ch st) = (if k =? 0 then EOF else 1, key)).
  { rewrite B. unfold sscanf_c. subst key. destruct (k =? 0); reflexivity. }
  assert (C32 : 32 <= char_int signed_char c).
  { subst c. destruct (Z.ltb_spec (char_int signed_char key) 32); [|lia].
    unfold char_int. rewrite andb_false_r. lia. }
  unfold UARTSendLots. rewrite R, S. cbn zeta. fold c.
  destruct (Z.eqb_spec c 32) as [E | N].
  - rewrite E. rewrite (char_int_small signed_char 32) by lia.
    cbn [Z.eqb Pos.eqb].
    match goal with
    | |- context [UARTSendLots_lines _ _ _ _ ?o] =>
        destruct (send_lines_mix signed_char o) as [ch' ->]
    end.
    eexists. split; [reflexivity|]. split; [reflexivity|].
    split; [cbn [end_stdout app]; rewrite <- ?app_assoc; reflexivity|].
    split; [|lia].
    intros n. unfold mix_char.
    pose proof (Z.mod_pos_bound (Z.of_nat n) 94 ltac:(lia)). lia.
  - assert (N' : (char_int signed_char c =? 32) = false).
    { rewrite char_int_is by lia. apply Z.eqb_neq, N. }
    rewrite N', send_lines_plain, <- block_const.
    eexists. split; [reflexivity|]. split; [reflexivity|].
    split; [cbn [end_stdout app]; rewrite <- ?app_assoc; reflexivity|].
    split; [|exact C32].
    intros n. unfold mix_char.
    pose proof (Z.mod_pos_bound (Z.of_nat n) 94 ltac:(lia)). lia.
Qed.

Lemma UARTSendLots_block_witness :
  let st := {| kv_entry := [0; 0; 0; 0]; kv_ch := 0 |} in
  length (kv_entry st) = 4%nat /\
  exists e,
    UARTSendLots true st [x20; x0a]%byte = Some e /\
    end_stdout e
      = [PrintUartPrompt; PrintEcho 32] ++ block mix_char ++ [PrintNewline].
Proof.
  intros st.
  assert (L : length (kv_entry st) = 4%nat) by reflexivity.
  split; [exact L|].
  destruct (UARTSendLots_block true st [x20; x0a]%byte L ltac:(cbn; lia))
    as (e & E & _ & O & _).
  exists e. split; [exact E|exact O].
Defined.

(* ------------------------------------------------------------------ *)
(** ** [UARTReceiveChars] *)

Lemma to_char_char_int sc b : 0 <= b < 256 -> to_char (char_int sc b) = b.
Proof.
  intros R. unfold char_int, to_char.
  destruct (sc && (128 <=? b)) eqn:C.
  - apply andb_true_iff in C. destruct C as [_ C]. apply Z.leb_le in C.
    replace (b - 256) with (b + (-1) * 256) by lia.
    rewrite Z.mod_add by lia. apply Z.mod_small. lia.
  - apply Z.mod_small. lia.
Qed.

Lemma shown_steps sc b :
  0 <= b < 256 ->
  to_char (if 32 <=? char_int sc b then char_int sc b else 46) = shown sc b.
Proof.
  intros R. unfold shown.
  destruct (32 <=? char_int sc b); [apply to_char_char_int, R|reflexivity].
Qed.

Lemma keys_from_range lines : forall ch,
  0 <= ch < 256 -> Forall (fun c => 0 <= c < 256) (keys_from ch lines).
Proof.
  induction lines as [|l lines IH]; intros ch R; cbn [keys_from]; constructor.
  - apply next_ch_range, R.
  - apply IH, next_ch_range, R.
Qed.

Lemma UARTReceiveChars_loop_script sc rest last before :
  forall st fuel out,
  length (kv_entry st) = 4%nat ->
  0 <= kv_ch st < 256 ->
  Forall short_line before -> short_line last ->
  Forall (fun c => c <> 113) (keys_from (kv_ch st) before) ->
  next_ch (fold_left next_ch before (kv_ch st)) last = 113 ->
  (length before < fuel)%nat ->
  exists entry',
    UARTReceiveChars_loop sc fuel st (script (before ++ [last]) ++ rest) out
      = Some ({| kv_entry := entry'; kv_ch := 113 |}, rest,
              out ++ map (fun c => PrintKey (shown sc c) (char_int sc c))
                       (keys_from (kv_ch st) (before ++ [last]))).
Proof.
  induction before as [|line before IH];
    intros st fuel out L R Sb Sl NQ Q F;
    (destruct fuel as [|fuel]; [cbn in F; lia|]);
    cbn [app].
  - rewrite script_cons. cbn [UARTReceiveChars_loop].
    destruct (read_script_line st last (script [] ++ rest) L Sl)
      as (r & -> & U & Lb & ->).
    cbn [fold_left] in Q. cbn [keys_from map]. rewrite Q.
    rewrite char_int_is_q by lia. rewrite shown_steps by lia.
    cbn [Z.eqb Pos.eqb negb]. rewrite U.
    exists (buffer r). reflexivity.
  - rewrite script_cons. cbn [UARTReceiveChars_loop].
    inversion Sb as [|? ? Sline Sb']; subst.
    cbn [keys_from] in NQ. inversion NQ as [|? ? NQ1 NQ']; subst.
    destruct (read_script_line st line (script (before ++ [last]) ++ rest)
                L Sline) as (r & -> & U & Lb & ->).
    pose proof (next_ch_range _ line R) as R'.
    rewrite char_int_is_q by exact R'. rewrite shown_steps by exact R'.
    apply Z.eqb_neq in NQ1. rewrite NQ1. cbn [negb]. rewrite U.
    cbn [keys_from map].
    set (st' := {| kv_entry := buffer r; kv_ch := next_ch (kv_ch st) line |}).
    destruct (IH st' fuel
                (out ++ [PrintKey (shown sc (next_ch (kv_ch st) line))
                           (char_int sc (next_ch (kv_ch st) line))]))
      as (entry' & E); cbn [st' kv_entry kv_ch]; auto.
    + cbn [length] in F. lia.
    + exists entry'. rewrite E, <- app_assoc. reflexivity.
Qed.

(** X17.  [UARTReceiveChars] on a script of lines that fit the buffer: after
    its prompt it echoes one line per input line - the ['q'] that ends the
    test included - showing the key of the line, or ['.'] in its place when
    the key is below 32 as a [char], together with the value of the key; the
    character shown is therefore never below 32.  It returns at the first key
    ['q'], writes to no PIO and leaves the rest of the input unread. *)
Theorem UARTReceiveChars_script (signed_char : bool) (st : key_vars)
    (before : list (list byte)) (last_line rest : list byte) (fuel : nat) :
  length (kv_entry st) = 4%nat ->
  0 <= kv_ch st < 256 ->
  Forall short_line before -> short_line last_line ->
  Forall (fun c => c <> 113) (keys_from (kv_ch st) before) ->
  next_ch (fold_left next_ch before (kv_ch st)) last_line = 113 ->
  (length before < fuel)%nat ->
  let keys := keys_from (kv_ch st) (before ++ [last_line]) in
  exists e,
    UARTReceiveChars signed_char fuel st
      (script (before ++ [last_line]) ++ rest) = Some e /\
    end_stdin e = rest /\
    end_writes e = [] /\
    end_stdout e
      = PrintReceivePrompt
          :: map (fun c => PrintKey (shown signed_char c) (char_int signed_char c))
               keys /\
    length keys = S (length before) /\
    Forall (fun c => 32 <= char_int signed_char (shown signed_char c)) keys.
Proof.
  intros L R Sb Sl NQ Q F keys.
  destruct (UARTReceiveChars_loop_script signed_char rest last_line before st
              fuel [PrintReceivePrompt] L R Sb Sl NQ Q F) as (entry' & E).
  unfold UARTReceiveChars. rewrite E. fold keys.
  eexists. split; [reflexivity|]. cbn [end_stdin end_writes end_stdout app].
  split; [reflexivity|]. split; [reflexivity|]. split; [reflexivity|].
  split.
  - subst keys. clear. generalize (kv_ch st).
    induction before as [|l before IH]; intros c; cbn; [reflexivity|].
    rewrite IH. reflexivity.
  - pose proof (keys_from_range (before ++ [last_line]) (kv_ch st) R) as Rk.
    fold keys in Rk. revert Rk. apply Forall_impl. intros c Rc.
    unfold shown. destruct (Z.leb_spec 32 (char_int signed_char c)); [lia|].
    rewrite char_int_small; lia.
Qed.

Lemma UARTReceiveChars_script_witness :
  let st := {| kv_entry := [0; 0; 0; 0]; kv_ch := 0 |} in
  let before := [[x41; x0d]; [x07]]%byte in
  exists e,
    UARTReceiveChars true 3 st
      (script (before ++ [[x71]%byte]) ++ [x7a; x0a]%byte) = Some e /\
    end_stdin e = [x7a; x0a]%byte /\
    end_stdout e = [PrintReceivePrompt; PrintKey 65 65; PrintKey 46 7;
                    PrintKey 113 113].
Proof.
  intros st before.
  assert (S : forall l, In l (before ++ [[x71]%byte]) -> short_line l).
  { intros l H. cbn in H.
    repeat (destruct H as [<- | H];
            [split; [cbn; intuition discriminate|cbn; lia]|]).
    contradiction. }
  destruct (UARTReceiveChars_script true st before [x71]%byte [x7a; x0a]%byte 3)
    as (e & E & I & _ & O & _).
  - reflexivity.
  - cbn. lia.
  - apply Forall_forall. intros l H. apply S, in_or_app. left. exact H.
  - apply S, in_or_app. right. left. reflexivity.
  - cbn. repeat constructor; discriminate.
  - reflexivity.
  - cbn. lia.
  - exists e. split; [exact E|]. split; [exact I|]. rewrite O. reflexivity.
Defined.

(* ------------------------------------------------------------------ *)
(** ** The title of [Test_Func] *)

Lemma lor_low (y c : Z) :
  0 <= c < 128 -> Z.lor (y * 128) c = y * 128 + c.
Proof.
  intros R.
  assert (D : Z.land (y * 128) c = 0).
  { apply Z.bits_inj'. intros i Hi. rewrite Z.land_spec, Z.bits_0.
    change 128 with (2 ^ 7). rewrite <- Z.shiftl_mul_pow2 by lia.
    destruct (Z.lt_ge_cases i 7).
    - rewrite Z.shiftl_spec_low by lia. reflexivity.
    - replace c with (c mod 2 ^ 7) by (apply Z.mod_small; exact R).
      rewrite Z.mod_pow2_bits_high by lia. apply andb_false_r. }
  rewrite <- Z.lxor_lor by exact D. symmetry.
  apply Z.add_nocarry_lxor, D.
Qed.

Lemma shl7_eq x : exists q, shl7 x = x * 128 - 2 ^ 32 * q /\ shl7 x mod 128 = 0
                            /\ 0 <= shl7 x < 2 ^ 32.
Proof.
  unfold shl7, to_u32. rewrite Z.shiftl_mul_pow2 by lia.
  change (2 ^ 7) with 128.
  exists (x * 128 / 2 ^ 32).
  pose proof (Z.div_mod (x * 128) (2 ^ 32) ltac:(lia)) as E.
  pose proof (Z.mod_pos_bound (x * 128) (2 ^ 32) ltac:(lia)) as B.
  split; [lia|]. split; [|exact B].
  change (2 ^ 32) with (33554432 * 128).
  rewrite Z.mul_mod_distr_r by lia. apply Z.mod_mul. lia.
Qed.

Lemma shl7_lor x c :
  0 <= c < 128 ->
  exists q, Z.lor (shl7 x) c = x * 128 + c - 2 ^ 32 * q /\
            0 <= Z.lor (shl7 x) c < 2 ^ 32.
Proof.
  intros R. destruct (shl7_eq x) as (q & E & M & B).
  exists q.
  assert (S : shl7 x = (shl7 x / 128) * 128).
  { pose proof (Z.div_mod (shl7 x) 128 ltac:(lia)). lia. }
  rewrite S, lor_low by exact R. rewrite <- S.
  split; [lia|].
  assert (shl7 x <= 2 ^ 32 - 128).
  { pose proof (Z.div_mod (shl7 x) 128 ltac:(lia)).
    assert (shl7 x / 128 < 33554432)
      by (apply Z.div_lt_upper_bound; change (2 ^ 32) with 4294967296 in B; lia).
    change (2 ^ 32) with 4294967296. lia. }
  lia.
Qed.

Lemma lor_mod_128 t c :
  0 <= c < 128 -> t mod 128 = 0 -> (Z.lor t c) mod 128 = c.
Proof.
  intros R M.
  assert (S : t = (t / 128) * 128).
  { pose proof (Z.div_mod t 128 ltac:(lia)). lia. }
  rewrite S, lor_low by exact R.
  rewrite Z.add_comm, Z.mod_add by lia. apply Z.mod_small, R.
Qed.

Lemma digit_of w k d m r :
  0 <= d < 128 -> 0 <= k -> 0 <= r < 2 ^ (7 * k) ->
  w = r + 2 ^ (7 * k) * (d + 128 * m) -> digit k w = d.
Proof.
  intros Rd Rk Rr ->. unfold digit.
  assert (P : 0 < 2 ^ (7 * k)) by (apply Z.pow_pos_nonneg; lia).
  rewrite (Z.mul_comm (2 ^ (7 * k))), Z.div_add by lia.
  rewrite Z.div_small by exact Rr.
  rewrite Z.add_0_l, (Z.mul_comm 128 m), Z.mod_add by lia.
  apply Z.mod_small, Rd.
Qed.

Ltac pow7 :=
  repeat match goal with
         | |- context [2 ^ (7 * ?k)] =>
             let x := eval vm_compute in (2 ^ (7 * k)) in
             change (2 ^ (7 * k)) with x
         end;
  lia.

(** X18.  The title shown by [Test_Func] while SW7 is on.  Whatever the two
    globals held, the word written to the second display has the digit
    patterns 0x3f, 0x78, 0x24, 0x30 (a dash and the patterns of 7, 2, 3 of the
    [segments] table) in its low 28 bits; the word written to the first
    display has 0x46, 0x06 in digits 2 and 1, and 0x00 - never the 0x48 of
    the source text - in digit 0; its digit 3 is 0x06 whenever the global had
    its low seven bits clear, as it has at program start and after every
    pass. *)
Theorem Test_Func_title_digits (switches t1 t2 : Z) :
  Z.land switches 0x00080 = 0x00080 ->
  exists t1' t2',
    Test_Func_titles switches t1 t2
      = (t1', t2', [(SEVEN_SEG_PIO_BASE, t1'); (SEVEN_SEG_PIO_1_BASE, t2')]) /\
    map (fun k => digit k t2') [3; 2; 1; 0]
      = [0x3f; segment 7; segment 2; segment 3] /\
    map (fun k => digit k t1') [2; 1; 0] = [0x46; 0x06; 0x00] /\
    t1' mod 128 = 0 /\
    (t1 mod 128 = 0 -> digit 3 t1' = 0x06).
Proof.
  intros SW. unfold Test_Func_titles.
  apply Z.eqb_eq in SW. rewrite SW.
  change (Z.shiftr 72 7) with 0. rewrite Z.lor_0_r.
  set (a := Z.lor t1 6).
  destruct (shl7_lor a 0x46 ltac:(lia)) as (q1 & E1 & B1).
  destruct (shl7_lor (Z.lor (shl7 a) 0x46) 0x06 ltac:(lia)) as (q2 & E2 & B2).
  destruct (shl7_eq (Z.lor (shl7 (Z.lor (shl7 a) 0x46)) 0x06))
    as (q3 & E3 & M3 & B3).
  set (u := shl7 (Z.lor (shl7 (Z.lor (shl7 a) 70)) 6)) in *.
  assert (U : to_u32 u = u) by (unfold to_u32; apply Z.mod_small; exact B3).
  rewrite U.
  set (b := Z.lor u 0x3F).
  destruct (shl7_lor b 0x78 ltac:(lia)) as (p1 & F1 & C1).
  destruct (shl7_lor (Z.lor (shl7 b) 0x78) 0x24 ltac:(lia)) as (p2 & F2 & C2).
  destruct (shl7_lor (Z.lor (shl7 (Z.lor (shl7 b) 0x78)) 0x24) 0x30 ltac:(lia))
    as (p3 & F3 & C3).
  set (v := Z.lor (shl7 (Z.lor (shl7 (Z.lor (shl7 b) 120)) 36)) 48) in *.
  assert (V : to_u32 v = v) by (unfold to_u32; apply Z.mod_small; exact C3).
  rewrite V.
  exists u, v. split; [reflexivity|].
  assert (Bm : b mod 128 = 0x3F) by (apply lor_mod_128; [lia|exact M3]).
  pose proof (Z.div_mod b 128 ltac:(lia)) as Db. rewrite Bm in Db.
  set (b' := b / 128) in *.
  pose proof (Z.div_mod a 128 ltac:(lia)) as Da.
  set (a' := a / 128) in *.
  change (2 ^ 32) with 4294967296 in *.
  set (P := p1 * 16384 + p2 * 128 + p3) in *.
  set (Q := q1 * 16384 + q2 * 128 + q3) in *.
  assert (Ev : v = 0x30 + 128 * 0x24 + 16384 * 0x78 + 2097152 * 0x3F
                   + 268435456 * (b' - 16 * P)) by (subst P; lia).
  assert (Eu : u = 128 * 0x06 + 16384 * 0x46 + 2097152 * (a - 2048 * Q))
    by (subst Q; lia).
  clearbody P Q. clear E1 E2 E3 F1 F2 F3.
  split; [|split; [|split]].
  - cbn [map].
    f_equal; [|f_equal; [|f_equal; [|f_equal]]].
    + apply (digit_of v 3 0x3f (b' - 16 * P)
               (0x30 + 128 * 0x24 + 16384 * 0x78)); pow7.
    + apply (digit_of v 2 0x78 (0x3F + 128 * (b' - 16 * P))
               (0x30 + 128 * 0x24)); pow7.
    + apply (digit_of v 1 0x24 (0x78 + 128 * (0x3F + 128 * (b' - 16 * P)))
               0x30); pow7.
    + apply (digit_of v 0 0x30
               (0x24 + 128 * (0x78 + 128 * (0x3F + 128 * (b' - 16 * P))))
               0); pow7.
  - cbn [map].
    f_equal; [|f_equal; [|f_equal]].
    + apply (digit_of u 2 0x46 (a - 2048 * Q) (128 * 0x06)); pow7.
    + apply (digit_of u 1 0x06 (0x46 + 128 * (a - 2048 * Q)) 0); pow7.
    + apply (digit_of u 0 0 (0x06 + 128 * (0x46 + 128 * (a - 2048 * Q))) 0);
        pow7.
  - exact M3.
  - intros M1.
    assert (Am : a mod 128 = 0x06) by (apply lor_mod_128; [lia|exact M1]).
    rewrite Am in Da.
    apply (digit_of u 3 0x06 (a' - 16 * Q) (128 * 0x06 + 16384 * 0x46));
      pow7.
Qed.

Lemma Test_Func_title_digits_witness :
  Z.land 0x80 0x00080 = 0x00080 /\
  exists t1' t2',
    Test_Func_titles 0x80 0 0
      = (t1', t2', [(SEVEN_SEG_PIO_BASE, t1'); (SEVEN_SEG_PIO_1_BASE, t2')]) /\
    map (fun k => digit k t1') [2; 1; 0] = [0x46; 0x06; 0x00].
Proof.
  assert (SW : Z.land 0x80 0x00080 = 0x00080) by reflexivity.
  split; [exact SW|].
  destruct (Test_Func_title_digits 0x80 0 0 SW) as (t1' & t2' & E & _ & D & _).
  exists t1', t2'. split; [exact E|exact D].
Defined.
